(** * A dataflow-graph node and its middleware executor

    Shallow embedding of [src/util.ts] ([pipe]), [errors.ts]
    ([MiddlewareError], [PipelineError]), [types.ts] and [src/Node.ts]
    (class [Node]), followed by the properties proved about them.

    [Node.ts] holds two editions of the class.  The second one goes with
    [pipe], has [use], and keys a node's outputs by the target object
    ([Map<Node<T>, ShouldActivate<T>>]); it is module [Node].  The first one
    keys the outputs by the target's id ([Map<string, Output<T>>]) and calls
    an executor [pipeMiddleware]; it is module [NodeById].

    Modelling conventions.
    - The context [ctx : T] is the value handed to every step; the mutable
      state that steps, predicates and sinks act on (the fields of the context
      object, an [AbortController], ...) is the [World].
    - A [Promise<void>] is represented by the way it settles ([Outcome]).
    - A middleware step is an unknown caller-supplied async function.  Its
      behaviour is described by a [Body]: the effects it performs on the world
      and the places where it awaits the continuation [next()].  Steps that
      call [next()] without awaiting it, and steps that alter the graph, are
      outside this model.
    - Node objects live in a store and are referred to by address, so that
      two objects with the same [id] remain two objects.
    - A [touch] launched for an output is not awaited by its caller; the model
      records the launch and lets an arbitrary function [spawn] stand for
      what the callee does to the world before it first suspends.
    - [events] is an observation log: it records, in program order, each step
      the executor starts, each activation function called, each downstream
      [touch] launched and each sink called.  It has no counterpart in the
      source and never influences a result.
    - An activation predicate is taken to be a function of its arguments and
      of the world that returns a boolean.  A predicate that throws, or that
      changes the world, is outside this model: every statement about
      [touch] is made for predicates that do neither.
    - The object [explore] builds lists its fields in assignment order.  A
      JavaScript object does so for keys that are neither integer-like nor
      ["__proto__"] ([ordinary_key]); for other ids the tree of the model
      and the object of the source may differ. *)

From Stdlib Require Import Lia.
From stdpp Require Import base option list strings relations.

Set Warnings "-register-all".

(** Nodes are objects: a node is referred to by its address in the store. *)
Definition NodeRef := nat.

(* ------------------------------------------------------------------------- *)
(** ** errors.ts *)

Module Errors.
Section Errors.
Context {T V : Type}.

(** Values that can be thrown: a caller's own value, or one of the two
    [AggregateError] subclasses with their [errors], [message] and [ctx]. *)
Inductive Error : Type :=
| Thrown (value : V)
| MiddlewareError (errors : list Error) (message : option string) (ctx : option T)
| PipelineError (errors : list Error) (message : option string) (ctx : option T).

End Errors.
Arguments Error : clear implicits.
End Errors.
Export Errors.

(* ------------------------------------------------------------------------- *)
(** ** types.ts *)

Module Types.
Section Types.
Context {T World V : Type}.

(** How a [Promise<void>] settles.  [OutOfFuel] is the model's own answer when
    the recursion bound of [next] is used up; [pipe] always provides enough. *)
Inductive Outcome : Type :=
| Resolved
| Rejected (error : Error T V)
| OutOfFuel.

(** What the body of a step does once it is called with [(ctx, next)]. *)
Inductive Body : Type :=
| Return
| Throw (error : Error T V)
| Act (f : World -> World) (k : Body)
| Read (k : World -> Body)
| AwaitNext (k : Body) (handler : Error T V -> Body).

(** [type Processor<T> = (ctx: T, next: Next) => Promise<void>]; the [next]
    argument is what [AwaitNext] refers to. *)
Definition Processor : Type := T -> Body.

(** [AbortSignal]: its [aborted] flag is part of the world. *)
Record AbortSignal : Type := { aborted : World -> bool }.

(** [type ActivateFn<T> = (node: Node<T>, ctx: T) => boolean]: the boolean
    may depend on the world.  The type leaves out predicates that throw or
    that change the world. *)
Definition ActivateFn : Type := NodeRef -> T -> World -> bool.

(** [type ShouldActivate<T> = ActivateFn<T> | true] *)
Inductive ShouldActivate : Type :=
| Always
| Fn (f : ActivateFn).

(** What a call [sink(ctx)] does at the call site: it returns (a value or a
    promise, both ignored by the caller) or it throws. *)
Inductive SinkResult : Type :=
| SinkReturned
| SinkThrew (error : Error T V).

(** [type Sink<T> = (ctx: T) => MaybePromise<void>]; [sink_ref] is the
    identity of the function object, used by [Set<Sink<T>>]. *)
Record Sink : Type := {
  sink_ref : nat;
  sink_call : T -> World -> SinkResult * World
}.

(** Observation log. *)
Inductive Event : Type :=
| EvStep (index : nat)
| EvPredicate (node : NodeRef) (ctx : T)
| EvTouch (node : NodeRef) (ctx : T)
| EvSink (sink : nat) (ctx : T).

Record State : Type := { world : World; events : list Event }.

Definition set_world (w : World) (s : State) : State :=
  {| world := w; events := events s |}.

Definition log (e : Event) (s : State) : State :=
  {| world := world s; events := events s ++ [e] |}.

End Types.
Arguments Outcome : clear implicits.
Arguments Body : clear implicits.
Arguments Processor : clear implicits.
Arguments AbortSignal : clear implicits.
Arguments ActivateFn : clear implicits.
Arguments ShouldActivate : clear implicits.
Arguments SinkResult : clear implicits.
Arguments Sink : clear implicits.
Arguments Event : clear implicits.
Arguments State : clear implicits.
Arguments Resolved {T V}.
Arguments OutOfFuel {T V}.
Arguments Return {T World V}.
Arguments Always {T World}.
Arguments SinkReturned {T V}.
Arguments EvStep {T} index.
End Types.
Export Types.

(* ------------------------------------------------------------------------- *)
(** ** util.ts *)

Module Util.
Section Util.
Context {T World V : Type}.

Local Abbreviation Error := (Error T V).
Local Abbreviation Outcome := (Outcome T V).
Local Abbreviation Body := (Body T World V).
Local Abbreviation Processor := (Processor T World V).
Local Abbreviation State := (State T World).

(** One invocation of the executor: the private [stack] ([[...processors]])
    next to the shared state.  [shifted] counts the calls of [stack.shift()]
    that returned a step; it is the index, in [processors], of the step at the
    head of [stack], and serves only to name steps in the log. *)
Record Frame : Type := { stack : list Processor; shifted : nat; state : State }.

Definition frame_act (f : World -> World) (fr : Frame) : Frame :=
  {| stack := stack fr; shifted := shifted fr;
     state := set_world (f (world (state fr))) (state fr) |}.

(** [signal?.aborted] *)
Definition signal_aborted (signal : option (AbortSignal World)) (w : World) : bool :=
  match signal with
  | Some sg => aborted sg w
  | None => false
  end.

(** Running the body of a step; [next] is the continuation it was given. *)
Fixpoint run_body (next : Frame -> Outcome * Frame) (b : Body) (fr : Frame)
  : Outcome * Frame :=
  match b with
  | Return => (Resolved, fr)
  | Throw error => (Rejected error, fr)
  | Act f k => run_body next k (frame_act f fr)
  | Read k => run_body next (k (world (state fr))) fr
  | AwaitNext k handler =>
      match next fr with
      | (Resolved, fr') => run_body next k fr'
      | (Rejected error, fr') => run_body next (handler error) fr'
      | (OutOfFuel, fr') => (OutOfFuel, fr')
      end
  end.

(** [new PipelineError([new MiddlewareError([error], ..., ctx)], ..., ctx)] *)
Definition chain_failure (ctx : T) (error : Error) : Error :=
  PipelineError
    [MiddlewareError [error] (Some "Failed to execute processor"%string) (Some ctx)]
    (Some "Failed to execute pipeline"%string) (Some ctx).

(** The closure [next] of [pipe]. *)
Fixpoint next (fuel : nat) (ctx : T) (signal : option (AbortSignal World))
  (fr : Frame) : Outcome * Frame :=
  match fuel with
  | 0 => (OutOfFuel, fr)
  | S fuel' =>
      if signal_aborted signal (world (state fr)) then (Resolved, fr)
      else
        match stack fr with
        | [] => (Resolved, fr)
        | processor :: rest =>
            let fr1 :=
              {| stack := rest; shifted := S (shifted fr);
                 state := log (EvStep (shifted fr)) (state fr) |} in
            match run_body (next fuel' ctx signal) (processor ctx) fr1 with
            | (Rejected error, fr2) => (Rejected (chain_failure ctx error), fr2)
            | settled => settled
            end
        end
  end.

(** [pipe(...processors)(ctx, signal)]: a fresh copy of the steps, then
    [return next()]. *)
Definition pipe (processors : list Processor) (ctx : T)
  (signal : option (AbortSignal World)) (s : State) : Outcome * State :=
  let '(o, fr) :=
    next (S (length processors)) ctx signal
      {| stack := processors; shifted := 0; state := s |} in
  (o, state fr).

(** [pipeMiddleware(...processors)(ctx, signal)], the executor the id-keyed
    edition of [Node.ts] imports.  Its text is that of [pipe]. *)
Definition pipeMiddleware (processors : list Processor) (ctx : T)
  (signal : option (AbortSignal World)) (s : State) : Outcome * State :=
  pipe processors ctx signal s.

End Util.
Arguments Frame : clear implicits.
End Util.
Export Util.

(* ------------------------------------------------------------------------- *)
(** ** ECMAScript collections used by Node.ts *)

(** [Map<K, V>].  [touch] and [explore] iterate over the outputs, so the
    order of the entries is part of the behaviour: they are kept in insertion
    order, [set] on a key that is present replaces its value in place,
    otherwise the entry is appended.  A map holds each key once; the
    statements ask for that where they need it ([NoDup] of the keys). *)
Module JSMap.
Section JSMap.
Context {K V : Type} `{EqDecision K}.

Fixpoint set (k : K) (v : V) (m : list (K * V)) : list (K * V) :=
  match m with
  | [] => [(k, v)]
  | (k', v') :: m' =>
      if decide (k' = k) then (k, v) :: m' else (k', v') :: set k v m'
  end.

Definition delete (k : K) (m : list (K * V)) : list (K * V) :=
  filter (fun e => e.1 <> k) m.

Definition clear (m : list (K * V)) : list (K * V) := [].

Definition size (m : list (K * V)) : nat := length m.
Definition keys (m : list (K * V)) : list K := m.*1.
Definition values (m : list (K * V)) : list V := m.*2.
Definition entries (m : list (K * V)) : list (K * V) := m.

(** The entries stored under key [k]. *)
Definition at_key (k : K) (m : list (K * V)) : list (K * V) :=
  filter (fun e => e.1 = k) m.

End JSMap.
End JSMap.

(** A plain object used as a record of nested records
    ([Record<string, Record<string, unknown>>]): fields in assignment order,
    assigning to a field that exists overwrites it.  This is how an object
    treats keys that are neither integer-like (those it lists first, in
    ascending order) nor ["__proto__"] (which sets the prototype and adds no
    field). *)
Inductive Tree : Type :=
| Obj (fields : list (string * Tree)).

Definition obj_assign (key : string) (value : Tree) (t : Tree) : Tree :=
  match t with
  | Obj fields => Obj (JSMap.set key value fields)
  end.

(* ------------------------------------------------------------------------- *)
(** ** Node.ts, the edition with [use] (second half of the file) *)

Module Node.
Section Node.
Context {T World V : Type}.

Local Abbreviation Error := (Error T V).
Local Abbreviation Outcome := (Outcome T V).
Local Abbreviation Processor := (Processor T World V).
Local Abbreviation ShouldActivate := (ShouldActivate T World).
Local Abbreviation Sink := (Sink T World V).
Local Abbreviation State := (State T World).

(** [interface NodeInit<T>] *)
Record NodeInit : Type := {
  init_id : option string;
  init_shouldActivate : option ShouldActivate
}.

(** The fields of a [Node<T>] object.  [own_shouldActivate] is the instance
    field [shouldActivate] (the static method keeps the name); [outputs] is
    [Map<Node<T>, ShouldActivate<T>>], keyed by the target object; [sinks] is
    [Set<Sink<T>>].  [metadata] carries no behaviour and is left out. *)
Record Node : Type := {
  id : string;
  own_shouldActivate : ShouldActivate;
  stack : list Processor;
  outputs : list (NodeRef * ShouldActivate);
  sinks : list Sink
}.

(** The store of node objects is a [list Node] ([Heap] below), addressed by
    position; [alloc] is what [new] does with the object. *)
Definition alloc (nd : Node) (h : list Node) : NodeRef * list Node :=
  (length h, h ++ [nd]).

(** [constructor({ id, shouldActivate })]; [randomUUID] is the value
    [crypto.randomUUID()] returns. *)
Definition new (init : NodeInit) (randomUUID : string) : Node :=
  {| id := default randomUUID (init_id init);
     own_shouldActivate := default Always (init_shouldActivate init);
     stack := [];
     outputs := [];
     sinks := [] |}.

(** A method that mutates [this] in place. *)
Definition update (this : NodeRef) (f : Node -> Node) (h : list Node) : list Node :=
  match h !! this with
  | Some nd => <[this := f nd]> h
  | None => h
  end.

(** [static shouldActivate(shouldActivate, node, ctx)] *)
Definition shouldActivate (sa : option ShouldActivate) (node : NodeRef) (ctx : T)
  (s : State) : bool * State :=
  match sa with
  | None => (true, s)
  | Some Always => (true, s)
  | Some (Fn f) => (f node ctx (world s), log (EvPredicate node ctx) s)
  end.

(** [use(...processors)] *)
Definition use (this : NodeRef) (processors : list Processor) (h : list Node) : list Node :=
  update this (fun nd =>
    {| id := id nd; own_shouldActivate := own_shouldActivate nd;
       stack := stack nd ++ processors;
       outputs := outputs nd; sinks := sinks nd |}) h.

(** [link(node, shouldActivate?)] *)
Definition link (this node : NodeRef) (sa : option ShouldActivate) (h : list Node) : list Node :=
  update this (fun nd =>
    {| id := id nd; own_shouldActivate := own_shouldActivate nd;
       stack := stack nd;
       outputs := JSMap.set node (default Always sa) (outputs nd);
       sinks := sinks nd |}) h.

(** [unlink(node)] *)
Definition unlink (this node : NodeRef) (h : list Node) : list Node :=
  update this (fun nd =>
    {| id := id nd; own_shouldActivate := own_shouldActivate nd;
       stack := stack nd;
       outputs := JSMap.delete node (outputs nd);
       sinks := sinks nd |}) h.

(** [unlinkAll()] *)
Definition unlinkAll (this : NodeRef) (h : list Node) : list Node :=
  update this (fun nd =>
    {| id := id nd; own_shouldActivate := own_shouldActivate nd;
       stack := stack nd;
       outputs := JSMap.clear (outputs nd);
       sinks := sinks nd |}) h.

(** [Set.prototype.add] and [Set.prototype.delete] on function objects. *)
Definition set_add (sk : Sink) (l : list Sink) : list Sink :=
  if decide (sink_ref sk ∈ sink_ref <$> l) then l else l ++ [sk].

Definition set_delete (sk : Sink) (l : list Sink) : list Sink :=
  filter (fun x => sink_ref x <> sink_ref sk) l.

(** [sink(sink)] *)
Definition sink (this : NodeRef) (sk : Sink) (h : list Node) : list Node :=
  update this (fun nd =>
    {| id := id nd; own_shouldActivate := own_shouldActivate nd;
       stack := stack nd; outputs := outputs nd;
       sinks := set_add sk (sinks nd) |}) h.

(** [unsink(sink)] *)
Definition unsink (this : NodeRef) (sk : Sink) (h : list Node) : list Node :=
  update this (fun nd =>
    {| id := id nd; own_shouldActivate := own_shouldActivate nd;
       stack := stack nd; outputs := outputs nd;
       sinks := set_delete sk (sinks nd) |}) h.

(** [clearStack()] *)
Definition clearStack (this : NodeRef) (h : list Node) : list Node :=
  update this (fun nd =>
    {| id := id nd; own_shouldActivate := own_shouldActivate nd;
       stack := []; outputs := outputs nd; sinks := sinks nd |}) h.

(** [clearSinks()] *)
Definition clearSinks (this : NodeRef) (h : list Node) : list Node :=
  update this (fun nd =>
    {| id := id nd; own_shouldActivate := own_shouldActivate nd;
       stack := stack nd; outputs := outputs nd; sinks := [] |}) h.

(** The call [node.touch(ctx)] made for a qualifying output.  Its promise is
    dropped.  [spawn] stands for whatever the callee does to the world before
    it first suspends; what it does later, and how it settles, is not seen by
    the caller. *)
Definition launch (spawn : NodeRef -> T -> World -> World) (node : NodeRef)
  (ctx : T) (s : State) : State :=
  log (EvTouch node ctx) (set_world (spawn node ctx (world s)) s).

(** The callback of [[...this.#outputs.entries()].map(...)]. *)
Definition touch_output (spawn : NodeRef -> T -> World -> World) (ctx : T)
  (s : State) (entry : NodeRef * ShouldActivate) : State :=
  let '(active, s1) := shouldActivate (Some entry.2) entry.1 ctx s in
  if active then launch spawn entry.1 ctx s1 else s1.

(** [[...this.#sinks.values()].map((sink) => sink(ctx))]: the sinks are
    called one after the other; a call that throws ends the [map]. *)
Fixpoint call_sinks (l : list Sink) (ctx : T) (s : State) : option Error * State :=
  match l with
  | [] => (None, s)
  | sk :: rest =>
      let '(r, w) := sink_call sk ctx (world s) in
      let s1 := set_world w (log (EvSink (sink_ref sk) ctx) s) in
      match r with
      | SinkThrew error => (Some error, s1)
      | SinkReturned => call_sinks rest ctx s1
      end
  end.

(** What [touch] does after [await pipe(...)(ctx)] has resolved: the two
    [if (...size)] blocks. *)
Definition fan_out (spawn : NodeRef -> T -> World -> World) (nd : Node) (ctx : T)
  (s1 : State) : Outcome * State :=
  let s2 :=
    if decide (JSMap.size (outputs nd) = 0) then s1
    else foldl (touch_output spawn ctx) s1 (JSMap.entries (outputs nd)) in
  if decide (length (sinks nd) = 0) then (Resolved, s2)
  else
    match call_sinks (sinks nd) ctx s2 with
    | (Some error, s3) => (Rejected error, s3)
    | (None, s3) => (Resolved, s3)
    end.

(** [async touch(ctx, shouldActivate?)] on the node object [nd] at [this]. *)
Definition touch (spawn : NodeRef -> T -> World -> World) (this : NodeRef)
  (nd : Node) (ctx : T) (override : option ShouldActivate) (s : State)
  : Outcome * State :=
  let activateFn := default (own_shouldActivate nd) override in
  let '(active, s0) := shouldActivate (Some activateFn) this ctx s in
  if negb active then (Resolved, s0)
  else
    match pipe (stack nd) ctx None s0 with
    | (Resolved, s1) => fan_out spawn nd ctx s1
    | settled => settled
    end.

(** [explore(wrap = true)].  The recursion follows the links, so it is
    bounded by [fuel]; [None] is a bound reached or a dangling reference. *)
Fixpoint explore (fuel : nat) (h : list Node) (this : NodeRef) (wrap : option bool)
  : option Tree :=
  match fuel with
  | 0 => None
  | S fuel' =>
      nd ← h !! this;
      tree ← foldl (fun acc node =>
                tree ← acc;
                target ← h !! node;
                sub ← explore fuel' h node (Some false);
                Some (obj_assign (id target) sub tree))
             (Some (Obj [])) (JSMap.keys (outputs nd));
      Some (if default true wrap then Obj [(id nd, tree)] else tree)
  end.

End Node.
Arguments NodeInit : clear implicits.
Arguments Node : clear implicits.
Abbreviation Heap T World V := (list (Node T World V)).
End Node.

(* ------------------------------------------------------------------------- *)
(** ** Node.ts, the edition whose outputs are keyed by id (first half of the
       file) *)

Module NodeById.
Section NodeById.
Context {T World V : Type}.

Local Abbreviation Error := (Error T V).
Local Abbreviation Outcome := (Outcome T V).
Local Abbreviation Processor := (Processor T World V).
Local Abbreviation ShouldActivate := (ShouldActivate T World).
Local Abbreviation Sink := (Sink T World V).
Local Abbreviation State := (State T World).

(** [interface Output<T>] *)
Record Output : Type := {
  node : NodeRef;
  out_shouldActivate : option ShouldActivate
}.

(** [interface NodeInit<T>] *)
Record NodeInit : Type := {
  init_id : option string;
  init_shouldActivate : option ShouldActivate
}.

(** The fields of a [Node<T>] object; [outputs] is
    [Map<string, Output<T>>], keyed by the target's id. *)
Record Node : Type := {
  id : string;
  own_shouldActivate : ShouldActivate;
  stack : list Processor;
  outputs : list (string * Output);
  sinks : list Sink
}.

Definition alloc (nd : Node) (h : list Node) : NodeRef * list Node :=
  (length h, h ++ [nd]).

(** [constructor({ id, shouldActivate })] *)
Definition new (init : NodeInit) (randomUUID : string) : Node :=
  {| id := default randomUUID (init_id init);
     own_shouldActivate := default Always (init_shouldActivate init);
     stack := [];
     outputs := [];
     sinks := [] |}.

Definition update (this : NodeRef) (f : Node -> Node) (h : list Node) : list Node :=
  match h !! this with
  | Some nd => <[this := f nd]> h
  | None => h
  end.

(** [static shouldActivate(shouldActivate, node, ctx)]: the same text as in
    the other edition. *)
Definition shouldActivate (sa : option ShouldActivate) (node : NodeRef) (ctx : T)
  (s : State) : bool * State :=
  match sa with
  | None => (true, s)
  | Some Always => (true, s)
  | Some (Fn f) => (f node ctx (world s), log (EvPredicate node ctx) s)
  end.

(** [link(node, shouldActivate?)]: the key is [node.id]. *)
Definition link (this target : NodeRef) (sa : option ShouldActivate) (h : list Node)
  : list Node :=
  match h !! target with
  | Some tg =>
      update this (fun nd =>
        {| id := id nd; own_shouldActivate := own_shouldActivate nd;
           stack := stack nd;
           outputs :=
             JSMap.set (id tg) {| node := target; out_shouldActivate := sa |}
               (outputs nd);
           sinks := sinks nd |}) h
  | None => h
  end.

(** [unlink(node)] *)
Definition unlink (this target : NodeRef) (h : list Node) : list Node :=
  match h !! target with
  | Some tg =>
      update this (fun nd =>
        {| id := id nd; own_shouldActivate := own_shouldActivate nd;
           stack := stack nd;
           outputs := JSMap.delete (id tg) (outputs nd);
           sinks := sinks nd |}) h
  | None => h
  end.

(** [unlinkAll()] *)
Definition unlinkAll (this : NodeRef) (h : list Node) : list Node :=
  update this (fun nd =>
    {| id := id nd; own_shouldActivate := own_shouldActivate nd;
       stack := stack nd;
       outputs := JSMap.clear (outputs nd);
       sinks := sinks nd |}) h.

(** [sink(sink)], [unsink(sink)], [clearStack()], [clearSinks()] *)
Definition sink (this : NodeRef) (sk : Sink) (h : list Node) : list Node :=
  update this (fun nd =>
    {| id := id nd; own_shouldActivate := own_shouldActivate nd;
       stack := stack nd; outputs := outputs nd;
       sinks := Node.set_add sk (sinks nd) |}) h.

Definition unsink (this : NodeRef) (sk : Sink) (h : list Node) : list Node :=
  update this (fun nd =>
    {| id := id nd; own_shouldActivate := own_shouldActivate nd;
       stack := stack nd; outputs := outputs nd;
       sinks := Node.set_delete sk (sinks nd) |}) h.

Definition clearStack (this : NodeRef) (h : list Node) : list Node :=
  update this (fun nd =>
    {| id := id nd; own_shouldActivate := own_shouldActivate nd;
       stack := []; outputs := outputs nd; sinks := sinks nd |}) h.

Definition clearSinks (this : NodeRef) (h : list Node) : list Node :=
  update this (fun nd =>
    {| id := id nd; own_shouldActivate := own_shouldActivate nd;
       stack := stack nd; outputs := outputs nd; sinks := [] |}) h.

(** [.filter(({ node, shouldActivate }) => Node.shouldActivate(...))] *)
Fixpoint filter_outputs (l : list Output) (ctx : T) (s : State)
  : list Output * State :=
  match l with
  | [] => ([], s)
  | o :: rest =>
      let '(active, s1) := shouldActivate (out_shouldActivate o) (node o) ctx s in
      let '(kept, s2) := filter_outputs rest ctx s1 in
      (if active then o :: kept else kept, s2)
  end.

(** [async touch(ctx, shouldActivate?)].  The executor is a parameter, so
    that what is proved of this [touch] holds whatever executor it is given;
    the source calls [pipeMiddleware(...this.stack)(ctx)], which is
    [fun ps ctx s => Util.pipeMiddleware ps ctx None s]. *)
Definition touch
  (pipeMiddleware : list Processor -> T -> State -> Outcome * State)
  (spawn : NodeRef -> T -> World -> World) (this : NodeRef)
  (nd : Node) (ctx : T) (override : option ShouldActivate) (s : State)
  : Outcome * State :=
  let '(active, s0) :=
    shouldActivate (Some (default (own_shouldActivate nd) override)) this ctx s in
  if negb active then (Resolved, s0)
  else
    match pipeMiddleware (stack nd) ctx s0 with
    | (Resolved, s1) =>
        let s2 :=
          if decide (JSMap.size (outputs nd) = 0) then s1
          else
            let '(kept, s1') := filter_outputs (JSMap.values (outputs nd)) ctx s1 in
            foldl (fun st o => Node.launch spawn (node o) ctx st) s1' kept in
        if decide (length (sinks nd) = 0) then (Resolved, s2)
        else
          match Node.call_sinks (sinks nd) ctx s2 with
          | (Some error, s3) => (Rejected error, s3)
          | (None, s3) => (Resolved, s3)
          end
    | settled => settled
    end.

(** [explore(wrap = false)] *)
Fixpoint explore (fuel : nat) (h : list Node) (this : NodeRef) (wrap : option bool)
  : option Tree :=
  match fuel with
  | 0 => None
  | S fuel' =>
      nd ← h !! this;
      tree ← foldl (fun acc o =>
                tree ← acc;
                target ← h !! node o;
                sub ← explore fuel' h (node o) (Some false);
                Some (obj_assign (id target) sub tree))
             (Some (Obj [])) (JSMap.values (outputs nd));
      Some (if default false wrap then Obj [(id nd, tree)] else tree)
  end.

End NodeById.
Arguments Output : clear implicits.
Arguments NodeInit : clear implicits.
Arguments Node : clear implicits.
Abbreviation Heap T World V := (list (Node T World V)).
End NodeById.

(* ------------------------------------------------------------------------- *)
(** ** Vocabulary of the statements *)

Section Shapes.
Context {T World V : Type}.

Local Abbreviation Error := (Error T V).
Local Abbreviation Body := (Body T World V).
Local Abbreviation Frame := (Frame T World V).

(** A body that never throws of its own accord: it works on the world, may
    await [next()] any number of times, and returns.  What it would do with a
    rejection of [next()] is left open. *)
Inductive calm : Body -> Prop :=
| calm_Return : calm Return
| calm_Act f k : calm k -> calm (Act f k)
| calm_Read k : (forall w, calm (k w)) -> calm (Read k)
| calm_AwaitNext k handler : calm k -> calm (AwaitNext k handler).

(** A calm body that awaits [next()] at least once, whichever way it takes. *)
Inductive proceeds : Body -> Prop :=
| proceeds_Act f k : proceeds k -> proceeds (Act f k)
| proceeds_Read k : (forall w, proceeds (k w)) -> proceeds (Read k)
| proceeds_AwaitNext k handler : calm k -> proceeds (AwaitNext k handler).

(** A body that, not having thrown, awaits [next()] and does not catch its
    rejection (what it does after a resolved [next()] is left open). *)
Inductive relays : Body -> Prop :=
| relays_Act f k : relays k -> relays (Act f k)
| relays_Read k : (forall w, relays (k w)) -> relays (Read k)
| relays_AwaitNext k : relays (AwaitNext k (fun error => Throw error)).

(** A body that throws [error] before any call of [next()]. *)
Inductive fails_with (error : Error) : Body -> Prop :=
| fails_Throw : fails_with error (Throw error)
| fails_Act f k : fails_with error k -> fails_with error (Act f k)
| fails_Read k : (forall w, fails_with error (k w)) -> fails_with error (Read k).

(** From [fr] to [fr'] the executor has shifted the steps [consumed] off its
    stack, and has logged exactly their indices, in order. *)
Definition advances (fr fr' : Frame) : Prop :=
  exists consumed,
    stack fr = consumed ++ stack fr' /\
    shifted fr' = shifted fr + length consumed /\
    events (state fr') =
      events (state fr) ++ (EvStep <$> seq (shifted fr) (length consumed)).

(** The frame [fr] with the world replaced by [w]. *)
Definition with_world (w : World) (fr : Frame) : Frame :=
  {| stack := stack fr; shifted := shifted fr; state := set_world w (state fr) |}.

(** The indices of the steps started, as they appear in a log. *)
Definition steps_of (l : list (Event T)) : list nat :=
  omap (fun e => match e with EvStep i => Some i | _ => None end) l.

(** The targets of the [touch] calls launched, and the sinks called. *)
Definition touches_of (l : list (Event T)) : list NodeRef :=
  omap (fun e => match e with EvTouch node _ => Some node | _ => None end) l.

Definition sinks_of (l : list (Event T)) : list nat :=
  omap (fun e => match e with EvSink sk _ => Some sk | _ => None end) l.

End Shapes.

(* ------------------------------------------------------------------------- *)
(** ** Concrete steps, sinks and graphs

    Contexts are numbered, the world is the counter [n] of the context object
    (as in the test suite's [{ n: number }]), thrown values are messages. *)

Module Samples.

Definition s0 : State nat nat := {| world := 5; events := [] |}.

(** [async (ctx, next) => { ctx.n += 10; await next(); }] *)
Definition add10 : Processor nat nat string :=
  fun _ => Act (fun n => n + 10) (AwaitNext Return (fun error => Throw error)).

(** [async () => { throw "boom"; }] *)
Definition boom : Processor nat nat string :=
  fun _ => Throw (Thrown "boom"%string).

(** [async (ctx) => { ctx.n = 0; }]: returns without calling [next()]. *)
Definition halt : Processor nat nat string :=
  fun _ => Act (fun _ => 0) Return.

(** [async (ctx, next) => { await next(); await next(); }] *)
Definition twice : Processor nat nat string :=
  fun _ => AwaitNext (AwaitNext Return (fun error => Throw error))
             (fun error => Throw error).

(** A signal that is aborted once the counter reaches 15. *)
Definition at15 : AbortSignal nat := {| aborted := fun n => bool_decide (15 <= n) |}.

(** [(ctx) => { throw "boom"; }], a sink that is a plain function. *)
Definition throwing_sink : Sink nat nat string :=
  {| sink_ref := 0; sink_call := fun _ w => (SinkThrew (Thrown "boom"%string), w) |}.

(** [(ctx) => console.log(ctx.n)] *)
Definition quiet_sink : Sink nat nat string :=
  {| sink_ref := 1; sink_call := fun _ w => (SinkReturned, w) |}.

(** Launched touches leave the world alone. *)
Definition idle : NodeRef -> nat -> nat -> nat := fun _ _ w => w.

(** [(node, ctx) => ctx.n > 0] *)
Definition positive : ShouldActivate nat nat := Fn (fun _ _ n => bool_decide (0 < n)).

(** [(node, ctx) => ctx.n > 100] *)
Definition large : ShouldActivate nat nat := Fn (fun _ _ n => bool_decide (100 < n)).

Definition init (name : string) : Node.NodeInit nat nat :=
  {| Node.init_id := Some name; Node.init_shouldActivate := None |}.

Definition init_by_id (name : string) : NodeById.NodeInit nat nat :=
  {| NodeById.init_id := Some name; NodeById.init_shouldActivate := None |}.

(** [new Node({id: "A"})], [new Node({id: "B"})], [new Node({id: "C"})] at
    addresses 0, 1, 2. *)
Definition abc : Node.Heap nat nat string :=
  [Node.new (init "A") ""; Node.new (init "B") ""; Node.new (init "C") ""]%string.

Definition abc_by_id : NodeById.Heap nat nat string :=
  [NodeById.new (init_by_id "A") ""; NodeById.new (init_by_id "B") "";
   NodeById.new (init_by_id "C") ""]%string.

(** [A.link(B); B.link(C)] *)
Definition chain : Node.Heap nat nat string :=
  Node.link 1 2 None (Node.link 0 1 None abc).

Definition chain_by_id : NodeById.Heap nat nat string :=
  NodeById.link 1 2 None (NodeById.link 0 1 None abc_by_id).

(** Three objects, the last two created with the same id. *)
Definition twins : Node.Heap nat nat string :=
  [Node.new (init "A") ""; Node.new (init "B") ""; Node.new (init "B") ""]%string.

Definition twins_by_id : NodeById.Heap nat nat string :=
  [NodeById.new (init_by_id "A") ""; NodeById.new (init_by_id "B") "";
   NodeById.new (init_by_id "B") ""]%string.

(** A node with two steps of which the first withholds [next()]. *)
Definition halting_node : Node.Node nat nat string :=
  {| Node.id := "A"%string; Node.own_shouldActivate := Always;
     Node.stack := [halt; add10]; Node.outputs := []; Node.sinks := [] |}.

(** A node with two forwarding steps, an output and a sink. *)
Definition busy_node : Node.Node nat nat string :=
  {| Node.id := "A"%string; Node.own_shouldActivate := positive;
     Node.stack := [add10; add10]; Node.outputs := [(1, Always); (2, large)];
     Node.sinks := [quiet_sink] |}.

(** [new Node({id: "A"}).sink((ctx) => { throw "boom"; })] *)
Definition node_with_throwing_sink : Node.Node nat nat string :=
  {| Node.id := "A"%string; Node.own_shouldActivate := Always;
     Node.stack := [add10]; Node.outputs := [(1, Always)];
     Node.sinks := [throwing_sink; quiet_sink] |}.

(** The same node in the id-keyed edition. *)
Definition node_with_throwing_sink_by_id : NodeById.Node nat nat string :=
  {| NodeById.id := "A"%string; NodeById.own_shouldActivate := Always;
     NodeById.stack := [add10];
     NodeById.outputs :=
       [("B"%string, {| NodeById.node := 1; NodeById.out_shouldActivate := None |})];
     NodeById.sinks := [throwing_sink; quiet_sink] |}.

(** A frame in the middle of a run, and a state, in which [at15] is
    signaled. *)
Definition late_frame : Frame nat nat string :=
  {| stack := [add10; add10]; shifted := 1;
     state := {| world := 15; events := [EvStep 0] |} |}.

Definition late_state : State nat nat := {| world := 20; events := [] |}.

End Samples.

(* ------------------------------------------------------------------------- *)
(** ** Vocabulary of the further statements *)

Section MoreShapes.
Context {T World V : Type}.

Local Abbreviation Error := (Error T V).
Local Abbreviation Body := (Body T World V).
Local Abbreviation Processor := (Processor T World V).
Local Abbreviation ShouldActivate := (ShouldActivate T World).
Local Abbreviation Sink := (Sink T World V).

(** A body that only works on the world and returns: it neither throws nor
    calls [next()]. *)
Inductive quiet : Body -> Prop :=
| quiet_Return : quiet Return
| quiet_Act f k : quiet k -> quiet (Act f k)
| quiet_Read k : (forall w, quiet (k w)) -> quiet (Read k).

(** [work; await next(); work], with [next()] awaited exactly once; what the
    body would do with a rejection is left open. *)
Inductive forwards_once : Body -> Prop :=
| forwards_once_Act f k : forwards_once k -> forwards_once (Act f k)
| forwards_once_Read k : (forall w, forwards_once (k w)) -> forwards_once (Read k)
| forwards_once_AwaitNext k handler : quiet k -> forwards_once (AwaitNext k handler).

(** [work; try { await next(); ... } catch (e) { work }]: a rejection of
    [next()] is caught and the body then returns normally. *)
Inductive catches : Body -> Prop :=
| catches_Act f k : catches k -> catches (Act f k)
| catches_Read k : (forall w, catches (k w)) -> catches (Read k)
| catches_AwaitNext k handler :
    (forall error, quiet (handler error)) -> catches (AwaitNext k handler).

(** The world in which a body makes its first call of [next()], if it makes
    one. *)
Fixpoint world_at_next (b : Body) (w : World) : option World :=
  match b with
  | Return => None
  | Throw _ => None
  | Act f k => world_at_next k (f w)
  | Read k => world_at_next (k w) w
  | AwaitNext _ _ => Some w
  end.

(** Every step left on the stack of [fr] is calm. *)
Definition all_calm (ctx : T) (fr : Frame T World V) : Prop :=
  Forall (fun p : Processor => calm (p ctx)) (stack fr).

(** [async (ctx, next) => { before(ctx); await next(); after(ctx); }] *)
Definition around (before after : World -> World) : Processor :=
  fun _ => Act before (AwaitNext (Act after Return) (fun error => Throw error)).

(** What a chain of [around] steps makes of the world: the [before] parts in
    order, then the [after] parts in reverse order. *)
Fixpoint around_all (l : list ((World -> World) * (World -> World))) (w : World)
  : World :=
  match l with
  | [] => w
  | (before, after) :: rest => after (around_all rest (before w))
  end.

(** What holds of every node object: its outputs are a map (each key once)
    and its sinks a set (each function object once). *)
Definition well_formed (nd : Node.Node T World V) : Prop :=
  NoDup (JSMap.keys (Node.outputs nd)) /\ NoDup (sink_ref <$> Node.sinks nd).

(** The stores that programs can build: objects come from [new], and every
    reference handed to a method is a reference to an object. *)
Inductive built : Node.Heap T World V -> Prop :=
| built_empty : built []
| built_new h init randomUUID :
    built h -> built (Node.alloc (Node.new init randomUUID) h).2
| built_use h this processors :
    built h -> built (Node.use this processors h)
| built_link h this node sa :
    built h -> node < length h -> built (Node.link this node sa h)
| built_unlink h this node :
    built h -> built (Node.unlink this node h)
| built_unlinkAll h this :
    built h -> built (Node.unlinkAll this h)
| built_sink h this sk :
    built h -> built (Node.sink this sk h)
| built_unsink h this sk :
    built h -> built (Node.unsink this sk h)
| built_clearStack h this :
    built h -> built (Node.clearStack this h)
| built_clearSinks h this :
    built h -> built (Node.clearSinks this h).

(** [b] is an output of [a]. *)
Definition linked (h : Node.Heap T World V) (a b : NodeRef) : Prop :=
  exists A, h !! a = Some A /\ b ∈ JSMap.keys (Node.outputs A).


(** The body of the loop of [explore]: [tree[node.id] = node.explore(false)],
    where [acc] is the tree so far ([None] once a recursive call has failed to
    return). *)
Definition explore_step (fuel : nat) (h : Node.Heap T World V)
  (acc : option Tree) (node : NodeRef) : option Tree :=
  tree ← acc;
  target ← h !! node;
  sub ← Node.explore fuel h node (Some false);
  Some (obj_assign (Node.id target) sub tree).

(** The outcome of the activation rule for an output entry in world [w]. *)
Definition qualifies (ctx : T) (w : World) (entry : NodeRef * ShouldActivate) : bool :=
  match entry.2 with
  | Always => true
  | Fn f => f entry.1 ctx w
  end.

(** The same for an [Output] of the id-keyed edition, whose predicate may be
    absent. *)
Definition qualifies_by_id (ctx : T) (w : World) (o : NodeById.Output T World) : bool :=
  match NodeById.out_shouldActivate o with
  | None => true
  | Some Always => true
  | Some (Fn f) => f (NodeById.node o) ctx w
  end.

End MoreShapes.

(** Further concrete steps and graphs. *)
Module MoreSamples.
Import Samples.

(** [async (ctx, next) => { try { await next(); } catch (e) { ctx.n = 99; } }] *)
Definition rescue : Processor nat nat string :=
  fun _ => AwaitNext Return (fun _ => Act (fun _ => 99) Return).

(** A node linked to itself. *)
Definition loop : Node.Heap nat nat string :=
  Node.link 0 0 None [Node.new (init "A") ""%string].

(** [A] linked to the two objects of [twins], both with id ["B"]. *)
Definition fork : Node.Heap nat nat string :=
  Node.link 0 2 None (Node.link 0 1 None twins).

(** [(ctx) => { ctx.n += 1; }], a second well-behaved sink. *)
Definition counting_sink : Sink nat nat string :=
  {| sink_ref := 2; sink_call := fun _ w => (SinkReturned, S w) |}.

(** A node with three outputs, of which the second is gated by [large]. *)
Definition hub : Node.Node nat nat string :=
  {| Node.id := "A"%string; Node.own_shouldActivate := positive;
     Node.stack := [add10];
     Node.outputs := [(1, Always); (2, large); (3, positive)];
     Node.sinks := [quiet_sink; counting_sink] |}.

Definition hub_by_id : NodeById.Node nat nat string :=
  {| NodeById.id := "A"%string; NodeById.own_shouldActivate := positive;
     NodeById.stack := [add10];
     NodeById.outputs :=
       [("B"%string, {| NodeById.node := 1; NodeById.out_shouldActivate := None |});
        ("C"%string, {| NodeById.node := 2; NodeById.out_shouldActivate := Some large |});
        ("D"%string, {| NodeById.node := 3; NodeById.out_shouldActivate := Some positive |})];
     NodeById.sinks := [quiet_sink; counting_sink] |}.

(** A node whose chain fails. *)
Definition failing_node : Node.Node nat nat string :=
  {| Node.id := "A"%string; Node.own_shouldActivate := Always;
     Node.stack := [add10; boom]; Node.outputs := [(1, Always)];
     Node.sinks := [quiet_sink] |}.

(** A node whose second sink throws. *)
Definition node_with_late_throw : Node.Node nat nat string :=
  {| Node.id := "A"%string; Node.own_shouldActivate := Always;
     Node.stack := [add10]; Node.outputs := [];
     Node.sinks := [counting_sink; throwing_sink; quiet_sink] |}.

End MoreSamples.

(* ------------------------------------------------------------------------- *)
(** ** Vocabulary of the statements on order and on the cursor *)




Section CursorShapes.
Context {T World V : Type}.

Local Abbreviation Error := (Error T V).
Local Abbreviation Body := (Body T World V).
Local Abbreviation Processor := (Processor T World V).
Local Abbreviation Frame := (Frame T World V).

(** What one run of a body makes of the world, when its first awaited
    [next()] resolves having changed the world by [inner] and every later
    [next()] resolves having changed nothing. *)
Fixpoint body_world (b : Body) (inner : World -> World) (w : World) : World :=
  match b with
  | Return => w
  | Throw _ => w
  | Act f k => body_world k inner (f w)
  | Read k => body_world (k w) inner w
  | AwaitNext k _ => body_world k (fun w' => w') (inner w)
  end.

(** What the steps make of the world when each is run once, in list order,
    the first [next()] of a step standing for the run of the steps after
    it. *)
Fixpoint chain_world (processors : list Processor) (ctx : T) (w : World) : World :=
  match processors with
  | [] => w
  | p :: rest => body_world (p ctx) (chain_world rest ctx) w
  end.

(** Marks.  [marks w] is a list of numbers kept somewhere in the world.  A
    body [keeps] the marks if none of its actions changes them. *)
Inductive keeps (marks : World -> list nat) : Body -> Prop :=
| keeps_Return : keeps marks Return
| keeps_Throw error : keeps marks (Throw error)
| keeps_Act f k :
    (forall w, marks (f w) = marks w) -> keeps marks k -> keeps marks (Act f k)
| keeps_Read k : (forall w, keeps marks (k w)) -> keeps marks (Read k)
| keeps_AwaitNext k handler :
    keeps marks k -> (forall error, keeps marks (handler error)) ->
    keeps marks (AwaitNext k handler).

(** A body that announces itself: the first thing it does, every time it is
    run, is to add the mark [i]; nothing else in it touches the marks. *)
Definition announces (marks : World -> list nat) (i : nat) (b : Body) : Prop :=
  exists f k,
    b = Act f k /\ (forall w, marks (f w) = marks w ++ [i]) /\ keeps marks k.

(** [await next(); ... await next();], [j] times. *)
Fixpoint call_next_times (j : nat) : Body :=
  match j with
  | 0 => Return
  | S j' => AwaitNext (call_next_times j') (fun error => Throw error)
  end.

(** In a run over [processors] whose steps announce themselves by their
    index: the stack of [fr] is what is left of [processors] after
    [shifted fr] steps, and the marks made since the start (when they were
    [before]) are those of the steps shifted so far, once each, in order. *)
Definition marks_follow_cursor (marks : World -> list nat)
  (processors : list Processor) (before : list nat) (fr : Frame) : Prop :=
  stack fr = drop (shifted fr) processors /\
  marks (world (state fr)) = before ++ seq 0 (shifted fr).

End CursorShapes.

Module CursorSamples.
Import Samples.

(** [async (ctx, next) => { ctx.n *= 2; await next(); }] *)
Definition dbl : Processor nat nat string :=
  fun _ => Act (fun n => n * 2) (AwaitNext Return (fun error => Throw error)).

(** Steps over a world that is the list of marks itself:
    [async (ctx, next) => { ctx.push(i); ... }] *)
Definition marked (i : nat) (k : Body nat (list nat) string)
  : Processor nat (list nat) string :=
  fun _ => Act (fun l => l ++ [i]) k.

(** The first step calls [next()] three times, the others return without
    calling it. *)
Definition eager_chain : list (Processor nat (list nat) string) :=
  [marked 0 (call_next_times 3);
   marked 1 Return;
   marked 2 Return;
   marked 3 Return;
   marked 4 Return].

(** The first two steps call [next()] twice each and swallow what it
    throws, the third throws. *)
Definition greedy_chain : list (Processor nat (list nat) string) :=
  [marked 0 (AwaitNext (AwaitNext Return (fun _ => Return)) (fun _ => Return));
   marked 1 (AwaitNext (AwaitNext Return (fun _ => Return)) (fun _ => Return));
   marked 2 (Throw (Thrown "boom"%string));
   marked 3 Return].

Definition no_marks : State nat (list nat) := {| world := []; events := [] |}.


End CursorSamples.

(* ------------------------------------------------------------------------- *)
(** ** The executor *)

Section PipeFacts.
Context {T World V : Type}.

Local Abbreviation Error := (Error T V).
Local Abbreviation Outcome := (Outcome T V).
Local Abbreviation Body := (Body T World V).
Local Abbreviation Processor := (Processor T World V).
Local Abbreviation State := (State T World).
Local Abbreviation Frame := (Frame T World V).

Implicit Types (fr : Frame) (b : Body) (o : Outcome) (s : State)
  (nxt : Frame -> Outcome * Frame) (ctx : T)
  (signal : option (AbortSignal World)).

(** [advances] is a preorder on frames; a world update does not move the
    cursor, a shift moves it by one and logs the step. *)
Lemma advances_refl fr : advances fr fr.
Proof.
  exists []. simpl. rewrite Nat.add_0_r, app_nil_r. done.
Qed.

Lemma advances_trans fr1 fr2 fr3 :
  advances fr1 fr2 -> advances fr2 fr3 -> advances fr1 fr3.
Proof.
  intros (c1 & Hs1 & Hn1 & He1) (c2 & Hs2 & Hn2 & He2).
  exists (c1 ++ c2). rewrite length_app. repeat split.
  - rewrite Hs1, Hs2. by rewrite app_assoc.
  - lia.
  - rewrite He2, He1, Hn1, seq_app, fmap_app. by rewrite app_assoc.
Qed.

Lemma advances_act f fr fr' : advances (frame_act f fr) fr' -> advances fr fr'.
Proof. intros (c & ? & ? & ?). by exists c. Qed.

Lemma advances_shift p rest fr fr' :
  stack fr = p :: rest ->
  advances {| stack := rest; shifted := S (shifted fr);
              state := log (EvStep (shifted fr)) (state fr) |} fr' ->
  advances fr fr'.
Proof.
  intros Hst (c & Hs & Hn & He). simpl in *.
  exists (p :: c). simpl. repeat split.
  - by rewrite Hst, Hs.
  - lia.
  - rewrite He. by rewrite <- app_assoc.
Qed.

Lemma advances_length fr fr' :
  advances fr fr' -> length (stack fr') <= length (stack fr).
Proof. intros (c & -> & _). rewrite length_app. lia. Qed.

(** Whatever a body does, the cursor only moves through calls of [next()]. *)
Lemma run_body_advances nxt b :
  (forall fr o fr', nxt fr = (o, fr') -> advances fr fr') ->
  forall fr o fr', run_body nxt b fr = (o, fr') -> advances fr fr'.
Proof.
  intros Hnext. induction b as [| e | f k IH | k IH | k IHk h IHh]; simpl; intros fr o fr' Hrun.
  - injection Hrun as <- <-. apply advances_refl.
  - injection Hrun as <- <-. apply advances_refl.
  - apply advances_act with f. eauto.
  - eauto.
  - destruct (nxt fr) as [o1 fr1] eqn:Hcall.
    apply Hnext in Hcall.
    destruct o1.
    + eapply advances_trans; eauto.
    + eapply advances_trans; eauto.
    + injection Hrun as <- <-. done.
Qed.

(** [next] shifts a prefix of the stack and logs exactly those steps. *)
Lemma next_advances fuel ctx signal fr o fr' :
  next fuel ctx signal fr = (o, fr') -> advances fr fr'.
Proof.
  revert fr o fr'. induction fuel as [| fuel IH]; simpl; intros fr o fr' Hnext.
  - injection Hnext as <- <-. apply advances_refl.
  - destruct (signal_aborted signal (world (state fr))).
    { injection Hnext as <- <-. apply advances_refl. }
    destruct (stack fr) as [| p rest] eqn:Hst.
    { injection Hnext as <- <-. apply advances_refl. }
    destruct (run_body _ _ _) as [o1 fr1] eqn:Hrun.
    apply (run_body_advances _ _ IH) in Hrun.
    apply advances_shift with p rest; [done |].
    destruct o1; injection Hnext as <- <-; done.
Qed.

(** Fuel: a call of [next] with more fuel than steps left always settles. *)
Lemma run_body_settles nxt b bound :
  (forall fr o fr', nxt fr = (o, fr') -> advances fr fr') ->
  (forall fr, length (stack fr) <= bound -> (nxt fr).1 <> OutOfFuel) ->
  forall fr, length (stack fr) <= bound -> (run_body nxt b fr).1 <> OutOfFuel.
Proof.
  intros Hadv Hnext. induction b as [| e | f k IH | k IH | k IHk h IHh]; simpl; intros fr Hlen.
  - done.
  - done.
  - by apply IH.
  - by apply IH.
  - specialize (Hnext fr Hlen).
    destruct (nxt fr) as [o1 fr1] eqn:Hcall.
    apply Hadv, advances_length in Hcall.
    destruct o1; simpl in *; [apply IHk | apply IHh | done]; lia.
Qed.

Lemma next_settles fuel ctx signal fr :
  length (stack fr) < fuel -> (next fuel ctx signal fr).1 <> OutOfFuel.
Proof.
  revert fr. induction fuel as [| fuel IH]; simpl; intros fr Hlen; [lia |].
  destruct (signal_aborted signal (world (state fr))); [done |].
  destruct (stack fr) as [| p rest] eqn:Hst; [done |]. simpl in Hlen.
  match goal with |- context [run_body ?n ?b ?f] =>
    pose proof (run_body_settles n b (length rest)
                  (next_advances fuel ctx signal)) as Hrun;
    destruct (run_body n b f) as [o1 fr1] eqn:Heq
  end.
  assert (o1 <> OutOfFuel) as Ho1.
  { change o1 with ((o1, fr1).1). rewrite <- Heq. apply Hrun; simpl.
    - intros fr0 Hfr0. apply IH. lia.
    - lia. }
  destruct o1; done.
Qed.

(** Claim C7.  A call of [next()] made while the token is signaled resolves
    at once and leaves the frame as it is: no step is shifted or started and
    nothing is thrown.  In particular an executor invoked with a signaled
    token resolves without starting any step. *)
Theorem next_aborted_is_silent ctx signal fuel fr (processors : list Processor) s :
  signal_aborted signal (world (state fr)) = true ->
  signal_aborted signal (world s) = true ->
  next (S fuel) ctx signal fr = (Resolved, fr) /\
  pipe processors ctx signal s = (Resolved, s).
Proof.
  intros Hfr Hs. split.
  - simpl. by rewrite Hfr.
  - unfold pipe. simpl. by rewrite Hs.
Qed.

Lemma with_world_same fr : with_world (world (state fr)) fr = fr.
Proof. by destruct fr as [? ? []]. Qed.

Lemma next_exhausted fuel ctx signal fr :
  stack fr = [] -> next (S fuel) ctx signal fr = (Resolved, fr).
Proof. intros Hst. simpl. rewrite Hst. by destruct (signal_aborted _ _). Qed.

(** On an exhausted stack a calm body returns, however often it calls
    [next()]. *)
Lemma run_calm_exhausted nxt b fr :
  calm b ->
  (forall fr0, stack fr0 = [] -> nxt fr0 = (Resolved, fr0)) ->
  stack fr = [] ->
  exists w, run_body nxt b fr = (Resolved, with_world w fr).
Proof.
  intros Hcalm Hnxt. revert fr.
  induction Hcalm as [| f k _ IH | k _ IH | k handler _ IH]; intros fr Hst; simpl.
  - exists (world (state fr)). by rewrite with_world_same.
  - destruct (IH (frame_act f fr) Hst) as [w Hw]. exists w. by rewrite Hw.
  - by apply IH.
  - rewrite (Hnxt fr Hst). by apply IH.
Qed.

(** A failing body rejects with its error, having touched only the world. *)
Lemma run_fails nxt error b fr :
  fails_with error b ->
  exists w, run_body nxt b fr = (Rejected error, with_world w fr).
Proof.
  intros Hf. revert fr. induction Hf as [| f k _ IH | k _ IH]; intros fr; simpl.
  - exists (world (state fr)). by rewrite with_world_same.
  - destruct (IH (frame_act f fr)) as [w Hw]. exists w. by rewrite Hw.
  - apply IH.
Qed.

(** A relaying body hands over to [next()] in some world and rejects the way
    [next()] did. *)
Lemma run_relays nxt b fr :
  relays b ->
  exists w, forall error fr',
    nxt (with_world w fr) = (Rejected error, fr') ->
    run_body nxt b fr = (Rejected error, fr').
Proof.
  intros Hr. revert fr. induction Hr as [f k _ IH | k _ IH | k]; intros fr; simpl.
  - destruct (IH (frame_act f fr)) as [w Hw]. by exists w.
  - apply IH.
  - exists (world (state fr)). rewrite with_world_same.
    intros error fr' Hcall. by rewrite Hcall.
Qed.

(** A proceeding body hands over to [next()] in some world; if that run
    resolves with the stack used up, so does the body. *)
Lemma run_proceeds nxt b fr :
  proceeds b ->
  (forall fr0, stack fr0 = [] -> nxt fr0 = (Resolved, fr0)) ->
  exists w, forall fr',
    nxt (with_world w fr) = (Resolved, fr') ->
    stack fr' = [] ->
    exists w', run_body nxt b fr = (Resolved, with_world w' fr').
Proof.
  intros Hp Hnxt. revert fr.
  induction Hp as [f k _ IH | k _ IH | k handler Hcalm]; intros fr; simpl.
  - destruct (IH (frame_act f fr)) as [w Hw]. by exists w.
  - apply IH.
  - exists (world (state fr)). rewrite with_world_same.
    intros fr' Hcall Hst. rewrite Hcall. by apply run_calm_exhausted.
Qed.

(** The failure of step [k] seen from the [next()] that started the first of
    the relaying steps before it: one wrapping per level. *)
Lemma next_step_failure ctx signal error (pre : list Processor) :
  forall (pk : Processor) (post : list Processor) fuel c s,
    Forall (fun p => relays (p ctx)) pre ->
    fails_with error (pk ctx) ->
    (forall w, signal_aborted signal w = false) ->
    length pre < fuel ->
    exists w,
      next fuel ctx signal {| stack := pre ++ pk :: post; shifted := c; state := s |} =
      (Rejected (Nat.iter (S (length pre)) (chain_failure ctx) error),
       {| stack := post; shifted := c + S (length pre);
          state := {| world := w;
                      events := events s ++ (EvStep <$> seq c (S (length pre))) |} |}).
Proof.
  induction pre as [| p pre IH]; intros pk post fuel c s Hpre Hpk Hsig Hfuel;
    (destruct fuel as [| fuel]; [lia |]); simpl; rewrite Hsig.
  - destruct (run_fails (next fuel ctx signal) error (pk ctx)
      {| stack := post; shifted := S c; state := log (EvStep c) s |} Hpk) as [w ->].
    exists w. unfold with_world. simpl. do 3 f_equal. lia.
  - apply Forall_cons in Hpre as [Hp Hpre]. simpl in Hfuel.
    destruct (run_relays (next fuel ctx signal) (p ctx)
      {| stack := pre ++ pk :: post; shifted := S c; state := log (EvStep c) s |} Hp)
      as [w Hrun].
    destruct (IH pk post fuel (S c) (set_world w (log (EvStep c) s)) Hpre Hpk Hsig)
      as [w' Hnext]; [lia |].
    rewrite (Hrun _ _ Hnext).
    exists w'. simpl. do 3 f_equal; [lia |].
    by rewrite <- app_assoc.
Qed.

(** Claim C1, as amended.  Let step [k] throw [error] before calling
    [next()], let every earlier step, not having thrown, await [next()]
    without catching its rejection, and let the token never be signaled.
    Then the steps after [k] are never started: the log gains exactly steps
    [0 .. k-1] (0-based), in order.  The result rejects with [error] wrapped
    once per started step in a [PipelineError] whose single cause is a
    [MiddlewareError] whose single cause is the wrapped value, both carrying
    [ctx]; each [next()] on the way out wraps again.  For the first step
    ([pre = []]) this is the two-level error of the claim. *)
Theorem pipe_step_failure (pre post : list Processor) (pk : Processor) ctx signal s error :
  Forall (fun p => relays (p ctx)) pre ->
  fails_with error (pk ctx) ->
  (forall w, signal_aborted signal w = false) ->
  exists s',
    pipe (pre ++ pk :: post) ctx signal s =
      (Rejected (Nat.iter (S (length pre)) (chain_failure ctx) error), s') /\
    events s' = events s ++ (EvStep <$> seq 0 (S (length pre))) /\
    (pre = [] ->
     pipe (pre ++ pk :: post) ctx signal s =
       (Rejected
          (PipelineError
             [MiddlewareError [error] (Some "Failed to execute processor"%string)
                (Some ctx)]
             (Some "Failed to execute pipeline"%string) (Some ctx)), s')).
Proof.
  intros Hpre Hpk Hsig. unfold pipe.
  destruct (next_step_failure ctx signal error pre pk post
              (S (length (pre ++ pk :: post))) 0 s Hpre Hpk Hsig) as [w Hnext].
  { rewrite length_app. simpl. lia. }
  rewrite Hnext. eexists. split; [reflexivity |]. split; [done |].
  by intros ->.
Qed.

(** A stack of proceeding steps is run to its end by a single [next()]. *)
Lemma next_all_proceed ctx signal (stk : list Processor) :
  forall fuel c s,
    Forall (fun p => proceeds (p ctx)) stk ->
    (forall w, signal_aborted signal w = false) ->
    length stk < fuel ->
    exists w,
      next fuel ctx signal {| stack := stk; shifted := c; state := s |} =
      (Resolved,
       {| stack := []; shifted := c + length stk;
          state := {| world := w;
                      events := events s ++ (EvStep <$> seq c (length stk)) |} |}).
Proof.
  induction stk as [| p stk IH]; intros fuel c s Hall Hsig Hfuel;
    (destruct fuel as [| fuel]; [lia |]); simpl; rewrite Hsig.
  - exists (world s). destruct s. simpl. rewrite app_nil_r, Nat.add_0_r. done.
  - apply Forall_cons in Hall as [Hp Hall]. simpl in Hfuel.
    destruct (run_proceeds (next fuel ctx signal) (p ctx)
      {| stack := stk; shifted := S c; state := log (EvStep c) s |} Hp) as [w Hrun].
    { intros fr0 Hst. destruct fuel as [| fuel]; [lia |]. by apply next_exhausted. }
    destruct (IH fuel (S c) (set_world w (log (EvStep c) s)) Hall Hsig) as [w' Hnext];
      [lia |].
    destruct (Hrun _ Hnext eq_refl) as [w'' ->].
    exists w''. unfold with_world. simpl. do 3 f_equal; [lia |].
    by rewrite <- app_assoc.
Qed.

Lemma pipe_all_proceed (processors : list Processor) ctx s :
  Forall (fun p => proceeds (p ctx)) processors ->
  exists w,
    pipe processors ctx None s =
    (Resolved,
     {| world := w;
        events := events s ++ (EvStep <$> seq 0 (length processors)) |}).
Proof.
  intros Hall. unfold pipe.
  destruct (next_all_proceed ctx None processors (S (length processors)) 0 s Hall)
    as [w ->]; [done | lia |].
  by exists w.
Qed.

End PipeFacts.

(* ------------------------------------------------------------------------- *)
(** ** The world a chain of proceeding steps leaves *)

Section WorldOfChain.
Context {T World V : Type}.

Local Abbreviation Error := (Error T V).
Local Abbreviation Outcome := (Outcome T V).
Local Abbreviation Body := (Body T World V).
Local Abbreviation Processor := (Processor T World V).
Local Abbreviation State := (State T World).
Local Abbreviation Frame := (Frame T World V).

Implicit Types (fr : Frame) (b : Body) (o : Outcome) (s : State)
  (nxt : Frame -> Outcome * Frame) (ctx : T)
  (signal : option (AbortSignal World)).

(** On an exhausted stack a calm body returns; the world is the one its own
    actions make. *)
Lemma run_calm_exhausted_world nxt b fr :
  calm b ->
  (forall fr0, stack fr0 = [] -> nxt fr0 = (Resolved, fr0)) ->
  stack fr = [] ->
  run_body nxt b fr =
  (Resolved, with_world (body_world b (fun w => w) (world (state fr))) fr).
Proof.
  intros Hcalm Hnxt. revert fr.
  induction Hcalm as [| f k _ IH | k _ IH | k handler _ IH]; intros fr Hst; simpl.
  - by rewrite with_world_same.
  - by rewrite (IH (frame_act f fr) Hst).
  - by apply IH.
  - rewrite (Hnxt fr Hst). by apply IH.
Qed.

(** A proceeding body whose [next()] runs the rest of the chain to its end:
    the world is the one [body_world] computes. *)
Lemma run_proceeds_world nxt b fr (inner : World -> World) (fr_end : Frame) :
  proceeds b ->
  (forall fr0, stack fr0 = [] -> nxt fr0 = (Resolved, fr0)) ->
  stack fr_end = [] ->
  (forall w, nxt (with_world w fr) = (Resolved, with_world (inner w) fr_end)) ->
  run_body nxt b fr =
  (Resolved, with_world (body_world b inner (world (state fr))) fr_end).
Proof.
  intros Hp Hnxt Hend. revert fr.
  induction Hp as [f k _ IH | k _ IH | k handler Hcalm]; intros fr Hcall; simpl.
  - apply (IH (frame_act f fr)). intros w. apply Hcall.
  - by apply IH.
  - rewrite <- (with_world_same fr) at 1. rewrite Hcall.
    by rewrite (run_calm_exhausted_world nxt k _ Hcalm Hnxt).
Qed.

Lemma next_all_proceed_world ctx signal (stk : list Processor) :
  forall fuel c s,
    Forall (fun p => proceeds (p ctx)) stk ->
    (forall w, signal_aborted signal w = false) ->
    length stk < fuel ->
    next fuel ctx signal {| stack := stk; shifted := c; state := s |} =
    (Resolved,
     {| stack := []; shifted := c + length stk;
        state := {| world := chain_world stk ctx (world s);
                    events := events s ++ (EvStep <$> seq c (length stk)) |} |}).
Proof.
  induction stk as [| p stk IH]; intros fuel c s Hall Hsig Hfuel;
    (destruct fuel as [| fuel]; [lia |]); simpl; rewrite Hsig.
  - destruct s. simpl. by rewrite app_nil_r, Nat.add_0_r.
  - apply Forall_cons in Hall as [Hp Hall]. simpl in Hfuel.
    rewrite (run_proceeds_world (next fuel ctx signal) (p ctx) _
               (chain_world stk ctx)
               {| stack := []; shifted := S c + length stk;
                  state := {| world := world s;
                              events := events (log (EvStep c) s) ++
                                        (EvStep <$> seq (S c) (length stk)) |} |} Hp).
    + unfold with_world. simpl. do 3 f_equal; [lia |]. by rewrite <- app_assoc.
    + intros fr0 Hst. destruct fuel as [| fuel]; [lia |]. by apply next_exhausted.
    + done.
    + intros w. unfold with_world. simpl.
      by rewrite (IH fuel (S c) (set_world w (log (EvStep c) s)) Hall Hsig) by lia.
Qed.

Lemma pipe_all_proceed_world (processors : list Processor) ctx s :
  Forall (fun p => proceeds (p ctx)) processors ->
  pipe processors ctx None s =
  (Resolved,
   {| world := chain_world processors ctx (world s);
      events := events s ++ (EvStep <$> seq 0 (length processors)) |}).
Proof.
  intros Hall. unfold pipe.
  by rewrite (next_all_proceed_world ctx None processors _ 0 s Hall) by (done || lia).
Qed.

End WorldOfChain.

(* ------------------------------------------------------------------------- *)
(** ** Insertion-ordered maps *)

Section MapFacts.
Context {K V : Type} `{EqDecision K}.
Implicit Types (k : K) (v : V) (m : list (K * V)).

Lemma at_key_absent k m : k ∉ JSMap.keys m -> JSMap.at_key k m = [].
Proof.
  unfold JSMap.keys, JSMap.at_key. induction m as [| [k' v'] m IH]; simpl; [done |].
  rewrite not_elem_of_cons. intros [Hne Hnotin].
  rewrite filter_cons_False by (simpl; congruence). auto.
Qed.

Lemma at_key_set_same k v m :
  NoDup (JSMap.keys m) -> JSMap.at_key k (JSMap.set k v m) = [(k, v)].
Proof.
  unfold JSMap.keys, JSMap.at_key. induction m as [| [k' v'] m IH]; simpl; intros Hnd.
  - by rewrite filter_cons_True.
  - apply NoDup_cons in Hnd as [Hnotin Hnd].
    destruct (decide (k' = k)) as [-> | Hne].
    + rewrite filter_cons_True by done. f_equal. by apply at_key_absent.
    + rewrite filter_cons_False by done. auto.
Qed.

Lemma at_key_set_other k k' v m :
  k <> k' -> JSMap.at_key k' (JSMap.set k v m) = JSMap.at_key k' m.
Proof.
  unfold JSMap.at_key. intros Hne. induction m as [| [k0 v0] m IH]; simpl.
  - by rewrite filter_cons_False.
  - destruct (decide (k0 = k)) as [-> | Hne0].
    + by rewrite !filter_cons_False.
    + rewrite !filter_cons. simpl. by rewrite IH.
Qed.

Lemma keys_set k v m :
  JSMap.keys (JSMap.set k v m) =
  if decide (k ∈ JSMap.keys m) then JSMap.keys m else JSMap.keys m ++ [k].
Proof.
  unfold JSMap.keys. induction m as [| [k0 v0] m IH]; [done |].
  cbn [JSMap.set]. destruct (decide (k0 = k)) as [-> | Hne]; rewrite !fmap_cons; cbn [fst].
  - rewrite decide_True by left. done.
  - rewrite IH. destruct (decide (k ∈ m.*1)) as [Hin | Hnotin].
    + rewrite decide_True by (by right). done.
    + rewrite decide_False; [done |]. rewrite elem_of_cons. intros [Heq | Hin]; [by subst | done].
Qed.

Lemma NoDup_keys_set k v m :
  NoDup (JSMap.keys m) -> NoDup (JSMap.keys (JSMap.set k v m)).
Proof.
  intros Hnd. rewrite keys_set. case_decide; [done |].
  apply NoDup_app. split_and!; [done | | apply NoDup_singleton].
  intros x Hx ->%list_elem_of_singleton. done.
Qed.

Lemma at_key_delete_same k m : JSMap.at_key k (JSMap.delete k m) = [].
Proof.
  unfold JSMap.at_key, JSMap.delete. induction m as [| [k0 v0] m IH]; simpl; [done |].
  rewrite filter_cons. simpl. destruct (decide (k0 <> k)) as [Hne | Heq]; [| done].
  by rewrite filter_cons_False.
Qed.

Lemma at_key_delete_other k k' m :
  k <> k' -> JSMap.at_key k' (JSMap.delete k m) = JSMap.at_key k' m.
Proof.
  unfold JSMap.at_key, JSMap.delete. intros Hne.
  induction m as [| [k0 v0] m IH]; simpl; [done |].
  rewrite !filter_cons. simpl.
  destruct (decide (k0 <> k)) as [Hne0 | Heq].
  - rewrite filter_cons. simpl. by rewrite IH.
  - apply dec_stable in Heq as ->. by rewrite decide_False.
Qed.

End MapFacts.

(* ------------------------------------------------------------------------- *)
(** ** Nodes *)

Section NodeFacts.
Context {T World V : Type}.

Local Abbreviation Error := (Error T V).
Local Abbreviation Outcome := (Outcome T V).
Local Abbreviation Processor := (Processor T World V).
Local Abbreviation ShouldActivate := (ShouldActivate T World).
Local Abbreviation Sink := (Sink T World V).
Local Abbreviation State := (State T World).
Local Abbreviation Node := (Node.Node T World V).
Local Abbreviation Heap := (Node.Heap T World V).
Local Abbreviation NodeI := (NodeById.Node T World V).
Local Abbreviation HeapI := (NodeById.Heap T World V).

Implicit Types (h : Heap) (g : HeapI) (s : State) (ctx : T)
  (this a b c : NodeRef) (spawn : NodeRef -> T -> World -> World).

Lemma update_lookup h this f (nd : Node) :
  h !! this = Some nd -> Node.update this f h !! this = Some (f nd).
Proof.
  intros Hnd. unfold Node.update. rewrite Hnd.
  apply list_lookup_insert_eq. by eapply lookup_lt_Some.
Qed.

Lemma update_by_id_lookup g this f (nd : NodeI) :
  g !! this = Some nd -> NodeById.update this f g !! this = Some (f nd).
Proof.
  intros Hnd. unfold NodeById.update. rewrite Hnd.
  apply list_lookup_insert_eq. by eapply lookup_lt_Some.
Qed.

(** An in-place update that keeps [id] keeps the id stored at every address. *)
Lemma update_by_id_keeps_id g this f b (B : NodeI) :
  (forall nd, NodeById.id (f nd) = NodeById.id nd) ->
  g !! b = Some B ->
  exists B', NodeById.update this f g !! b = Some B' /\ NodeById.id B' = NodeById.id B.
Proof.
  intros Hid HB. unfold NodeById.update.
  destruct (g !! this) as [nd |] eqn:Hthis; [| by exists B].
  destruct (decide (this = b)) as [-> | Hne].
  - exists (f nd). split.
    + apply list_lookup_insert_eq. by eapply lookup_lt_Some.
    + rewrite Hid. congruence.
  - exists B. by rewrite list_lookup_insert_ne.
Qed.

Lemma link_by_id_lookup g a b (A B : NodeI) sa :
  g !! a = Some A -> g !! b = Some B ->
  exists A',
    NodeById.link a b sa g !! a = Some A' /\
    NodeById.id A' = NodeById.id A /\
    NodeById.outputs A' =
      JSMap.set (NodeById.id B)
        {| NodeById.node := b; NodeById.out_shouldActivate := sa |}
        (NodeById.outputs A).
Proof.
  intros HA HB. unfold NodeById.link. rewrite HB.
  eexists. split; [by apply update_by_id_lookup |]. done.
Qed.

Lemma link_by_id_keeps_id g a b c (B C : NodeI) sa :
  g !! b = Some B -> g !! c = Some C ->
  exists C', NodeById.link a b sa g !! c = Some C' /\ NodeById.id C' = NodeById.id C.
Proof.
  intros HB HC. unfold NodeById.link. rewrite HB.
  by apply update_by_id_keeps_id.
Qed.

(** Claim C5.  After [A.link(B, p1)] followed by [A.link(B, p2)], [A]'s
    outputs hold exactly one entry for [B], and its predicate is [p2].  This
    holds in both editions of Node.ts: the one keyed by the target object and
    the one keyed by the target's id. *)
Theorem link_twice_overwrites h g a b (A : Node) (GA GB : NodeI)
    (p1 p2 : ShouldActivate) :
  h !! a = Some A ->
  NoDup (JSMap.keys (Node.outputs A)) ->
  g !! a = Some GA ->
  g !! b = Some GB ->
  NoDup (JSMap.keys (NodeById.outputs GA)) ->
  (exists A',
      Node.link a b (Some p2) (Node.link a b (Some p1) h) !! a = Some A' /\
      JSMap.at_key b (Node.outputs A') = [(b, p2)]) /\
  (exists GA',
      NodeById.link a b (Some p2) (NodeById.link a b (Some p1) g) !! a = Some GA' /\
      JSMap.at_key (NodeById.id GB) (NodeById.outputs GA') =
        [(NodeById.id GB,
          {| NodeById.node := b; NodeById.out_shouldActivate := Some p2 |})]).
Proof.
  intros HA Hnd HGA HGB Hgnd. split.
  - unfold Node.link. eexists. split.
    + apply update_lookup. by apply update_lookup.
    + simpl. apply at_key_set_same. by apply NoDup_keys_set.
  - destruct (link_by_id_lookup g a b GA GB (Some p1) HGA HGB) as (A1 & HA1 & _ & Hout1).
    destruct (link_by_id_keeps_id g a b b GB GB (Some p1) HGB HGB) as (B1 & HB1 & Hid1).
    destruct (link_by_id_lookup _ a b A1 B1 (Some p2) HA1 HB1) as (A2 & HA2 & _ & Hout2).
    exists A2. split; [done |].
    rewrite Hout2, Hid1. apply at_key_set_same.
    rewrite Hout1. by apply NoDup_keys_set.
Qed.

(** Claim C8, as amended.  In the edition with [use] the outputs are a
    [Map<Node, ShouldActivate>]: the key is the target object.  Linking two
    distinct objects leaves one entry for each, whatever their ids; linking
    one object twice leaves one entry, with the later predicate; [unlink]
    removes the entry of the object it is given and no other.  Only in the
    edition with [Map<string, Output>] are links deduplicated by id: there,
    linking two objects of equal id leaves one entry under that id (for the
    later object), and [unlink] of either object removes it. *)
Theorem links_deduplicated_by_key h g a b1 b2 (A : Node) (GA B1 B2 : NodeI)
    (sa1 sa2 : option ShouldActivate) :
  h !! a = Some A ->
  NoDup (JSMap.keys (Node.outputs A)) ->
  b1 <> b2 ->
  g !! a = Some GA ->
  g !! b1 = Some B1 ->
  g !! b2 = Some B2 ->
  NoDup (JSMap.keys (NodeById.outputs GA)) ->
  NodeById.id B1 = NodeById.id B2 ->
  (exists A',
      Node.link a b2 sa2 (Node.link a b1 sa1 h) !! a = Some A' /\
      JSMap.at_key b1 (Node.outputs A') = [(b1, default Always sa1)] /\
      JSMap.at_key b2 (Node.outputs A') = [(b2, default Always sa2)]) /\
  (exists A',
      Node.link a b1 sa2 (Node.link a b1 sa1 h) !! a = Some A' /\
      JSMap.at_key b1 (Node.outputs A') = [(b1, default Always sa2)]) /\
  (exists A',
      Node.unlink a b2 (Node.link a b1 sa1 h) !! a = Some A' /\
      JSMap.at_key b1 (Node.outputs A') = [(b1, default Always sa1)]) /\
  (exists A',
      Node.unlink a b1 (Node.link a b1 sa1 h) !! a = Some A' /\
      JSMap.at_key b1 (Node.outputs A') = []) /\
  (exists GA',
      NodeById.link a b2 sa2 (NodeById.link a b1 sa1 g) !! a = Some GA' /\
      JSMap.at_key (NodeById.id B1) (NodeById.outputs GA') =
        [(NodeById.id B1,
          {| NodeById.node := b2; NodeById.out_shouldActivate := sa2 |})]) /\
  (exists GA',
      NodeById.unlink a b2 (NodeById.link a b1 sa1 g) !! a = Some GA' /\
      JSMap.at_key (NodeById.id B1) (NodeById.outputs GA') = []).
Proof.
  intros HA Hnd Hne HGA HB1 HB2 Hgnd Hid.
  pose proof (update_lookup h a) as Hup.
  split_and!.
  - unfold Node.link. eexists. split; [by apply update_lookup, update_lookup |].
    simpl. split.
    + rewrite at_key_set_other by done. by apply at_key_set_same.
    + apply at_key_set_same. by apply NoDup_keys_set.
  - unfold Node.link. eexists. split; [by apply update_lookup, update_lookup |].
    simpl. apply at_key_set_same. by apply NoDup_keys_set.
  - unfold Node.unlink, Node.link. eexists.
    split; [by apply update_lookup, update_lookup |].
    simpl. rewrite at_key_delete_other by done. by apply at_key_set_same.
  - unfold Node.unlink, Node.link. eexists.
    split; [by apply update_lookup, update_lookup |].
    simpl. apply at_key_delete_same.
  - destruct (link_by_id_lookup g a b1 GA B1 sa1 HGA HB1) as (A1 & HA1 & _ & Hout1).
    destruct (link_by_id_keeps_id g a b1 b2 B1 B2 sa1 HB1 HB2) as (B2' & HB2' & Hid2).
    destruct (link_by_id_lookup _ a b2 A1 B2' sa2 HA1 HB2') as (A2 & HA2 & _ & Hout2).
    exists A2. split; [done |].
    rewrite Hout2, Hid2, <- Hid. apply at_key_set_same.
    rewrite Hout1. by apply NoDup_keys_set.
  - destruct (link_by_id_lookup g a b1 GA B1 sa1 HGA HB1) as (A1 & HA1 & _ & Hout1).
    destruct (link_by_id_keeps_id g a b1 b2 B1 B2 sa1 HB1 HB2) as (B2' & HB2' & Hid2).
    unfold NodeById.unlink. rewrite HB2'.
    eexists. split; [by apply update_by_id_lookup |].
    simpl. rewrite Hid2, <- Hid. apply at_key_delete_same.
Qed.



Lemma decision_false (sa : ShouldActivate) this ctx s :
  (Node.shouldActivate (Some sa) this ctx s).1 = false ->
  Node.shouldActivate (Some sa) this ctx s = (false, log (EvPredicate this ctx) s).
Proof. destruct sa as [| f]; simpl; [done |]. by intros ->. Qed.

(** Claim C3.  When the effective predicate (the override, else the node's
    own) evaluates to false, [touch] resolves, the world is unchanged, and the
    only thing logged is the call of the predicate: no step, no launched
    touch, no sink.  Both editions. *)
Theorem touch_inactive spawn
    (pipeMiddleware : list Processor -> T -> State -> Outcome * State)
    this (nd : Node) (gnd : NodeI) ctx (override goverride : option ShouldActivate) s :
  (Node.shouldActivate
     (Some (default (Node.own_shouldActivate nd) override)) this ctx s).1 = false ->
  (NodeById.shouldActivate
     (Some (default (NodeById.own_shouldActivate gnd) goverride)) this ctx s).1 = false ->
  Node.touch spawn this nd ctx override s =
    (Resolved, log (EvPredicate this ctx) s) /\
  NodeById.touch pipeMiddleware spawn this gnd ctx goverride s =
    (Resolved, log (EvPredicate this ctx) s) /\
  world (log (EvPredicate this ctx) s) = world s /\
  steps_of (events (log (EvPredicate this ctx) s)) = steps_of (events s) /\
  touches_of (events (log (EvPredicate this ctx) s)) = touches_of (events s) /\
  sinks_of (events (log (EvPredicate this ctx) s)) = sinks_of (events s).
Proof.
  intros Hoff Hgoff. split_and!.
  - unfold Node.touch. by rewrite (decision_false _ _ _ _ Hoff).
  - unfold NodeById.touch.
    change (NodeById.shouldActivate ?sa) with (Node.shouldActivate sa) in *.
    by rewrite (decision_false _ _ _ _ Hgoff).
  - done.
  - unfold steps_of. simpl. rewrite omap_app. simpl. by rewrite app_nil_r.
  - unfold touches_of. simpl. rewrite omap_app. simpl. by rewrite app_nil_r.
  - unfold sinks_of. simpl. rewrite omap_app. simpl. by rewrite app_nil_r.
Qed.

Lemma decision_steps (sa : option ShouldActivate) this ctx s :
  steps_of (events (Node.shouldActivate sa this ctx s).2) = steps_of (events s).
Proof.
  destruct sa as [[| f] |]; simpl; try done.
  unfold steps_of. rewrite omap_app. simpl. by rewrite app_nil_r.
Qed.

Lemma touch_output_steps spawn ctx s (entry : NodeRef * ShouldActivate) :
  steps_of (events (Node.touch_output spawn ctx s entry)) = steps_of (events s).
Proof.
  unfold Node.touch_output.
  pose proof (decision_steps (Some entry.2) entry.1 ctx s) as Hd.
  destruct (Node.shouldActivate _ _ _ _) as [[] s1]; simpl in *; [| done].
  unfold steps_of in *. rewrite omap_app. simpl. by rewrite app_nil_r.
Qed.

Lemma touch_outputs_steps spawn ctx (l : list (NodeRef * ShouldActivate)) s :
  steps_of (events (foldl (Node.touch_output spawn ctx) s l)) = steps_of (events s).
Proof.
  revert s. induction l as [| entry l IH]; intros s; simpl; [done |].
  by rewrite IH, touch_output_steps.
Qed.

Lemma call_sinks_steps (l : list Sink) ctx s :
  steps_of (events (Node.call_sinks l ctx s).2) = steps_of (events s).
Proof.
  revert s. induction l as [| sk l IH]; intros s; simpl; [done |].
  destruct (sink_call sk ctx (world s)) as [r w].
  assert (steps_of (events (set_world w (log (EvSink (sink_ref sk) ctx) s))) =
          steps_of (events s)) as Hlog.
  { unfold steps_of. simpl. rewrite omap_app. simpl. by rewrite app_nil_r. }
  destruct r; [by rewrite IH | done].
Qed.

Lemma fan_out_steps spawn (nd : Node) ctx s :
  steps_of (events (Node.fan_out spawn nd ctx s).2) = steps_of (events s).
Proof.
  unfold Node.fan_out.
  set (s2 := if decide (JSMap.size (Node.outputs nd) = 0) then s else _).
  assert (steps_of (events s2) = steps_of (events s)) as Hs2.
  { subst s2. case_decide; [done |]. apply touch_outputs_steps. }
  case_decide; [done |].
  pose proof (call_sinks_steps (Node.sinks nd) ctx s2) as Hsinks.
  destruct (Node.call_sinks _ _ _) as [[e |] s3]; simpl in *; congruence.
Qed.

Lemma steps_of_steps (l : list nat) : steps_of (EvStep (T:=T) <$> l) = l.
Proof. unfold steps_of. induction l as [| i l IH]; simpl; [done |]. by f_equal. Qed.

(** Claim C2, as amended.  Let the effective predicate be [true] or a
    function returning true, and let every step of the stack await [next()]
    at least once and never throw of its own accord.  Then after
    [use(...processors)] the stack is the old one followed by [processors],
    and one [touch] runs every step of it exactly once, in that order: when
    the chain is over the world is the one [chain_world] computes from the
    steps in stack order, each run once with the steps after it in place of
    its first [next()]; the steps started are [0, 1, ...], one entry each;
    and [touch] goes on to the outputs and sinks from there. *)
Theorem touch_runs_stack_in_order spawn h this (nd : Node)
    (processors : list Processor) ctx (override : option ShouldActivate) s :
  h !! this = Some nd ->
  (default (Node.own_shouldActivate nd) override = Always \/
   exists f, default (Node.own_shouldActivate nd) override = Fn f /\
             f this ctx (world s) = true) ->
  Forall (fun p => proceeds (p ctx)) (Node.stack nd ++ processors) ->
  exists nd',
    Node.use this processors h !! this = Some nd' /\
    Node.stack nd' = Node.stack nd ++ processors /\
    Node.touch spawn this nd' ctx override s =
      Node.fan_out spawn nd' ctx
        {| world := chain_world (Node.stack nd ++ processors) ctx (world s);
           events :=
             events (Node.shouldActivate
                       (Some (default (Node.own_shouldActivate nd) override))
                       this ctx s).2 ++
             (EvStep <$> seq 0 (length (Node.stack nd ++ processors))) |} /\
    steps_of (events (Node.touch spawn this nd' ctx override s).2) =
      steps_of (events s) ++ seq 0 (length (Node.stack nd ++ processors)).
Proof.
  intros Hnd Hact Hall.
  eexists. split; [by apply update_lookup |]. split; [done |].
  unfold Node.touch. cbn [Node.own_shouldActivate Node.stack].
  pose proof (decision_steps
    (Some (default (Node.own_shouldActivate nd) override)) this ctx s) as Hdec.
  assert ((Node.shouldActivate
             (Some (default (Node.own_shouldActivate nd) override)) this ctx s).1
          = true /\
          world (Node.shouldActivate
             (Some (default (Node.own_shouldActivate nd) override)) this ctx s).2
          = world s) as [Hon Hw].
  { destruct Hact as [-> | (f & -> & Hf)]; [done | by simpl]. }
  destruct (Node.shouldActivate _ _ _ _) as [active s0]. simpl in Hon, Hw, Hdec.
  subst active. cbn [negb snd].
  rewrite (pipe_all_proceed_world _ ctx s0 Hall), Hw.
  split; [done |].
  rewrite fan_out_steps. cbn [events].
  unfold steps_of at 1. rewrite omap_app. fold (steps_of (events s0)).
  fold (steps_of (EvStep (T:=T) <$> seq 0 (length (Node.stack nd ++ processors)))).
  by rewrite steps_of_steps, Hdec.
Qed.

Lemma call_sinks_all_return (l : list Sink) ctx s :
  Forall (fun sk => forall x w, (sink_call sk x w).1 = SinkReturned) l ->
  (Node.call_sinks l ctx s).1 = None.
Proof.
  intros Hall. revert s. induction Hall as [| sk l Hsk _ IH]; intros s; simpl; [done |].
  specialize (Hsk ctx (world s)).
  destruct (sink_call sk ctx (world s)) as [r w]. simpl in Hsk. subst r. apply IH.
Qed.

(** The part of the fire-and-forget contract that holds: when no sink throws
    at its call site and no predicate throws or changes the world, [touch]
    settles exactly as the node's own chain does, whatever the outputs, the
    launched touches and the sinks do. *)
Lemma touch_settles_like_chain spawn this (nd : Node) ctx
    (override : option ShouldActivate) s :
  Forall (fun sk => forall x w, (sink_call sk x w).1 = SinkReturned) (Node.sinks nd) ->
  (Node.touch spawn this nd ctx override s).1 =
  let decision :=
    Node.shouldActivate
      (Some (default (Node.own_shouldActivate nd) override)) this ctx s in
  if decision.1 then (pipe (Node.stack nd) ctx None decision.2).1 else Resolved.
Proof.
  intros Hsinks. unfold Node.touch.
  destruct (Node.shouldActivate _ _ _ _) as [[] s0]; simpl; [| done].
  destruct (pipe _ _ _ _) as [[| e |] s1]; simpl; try done.
  unfold Node.fan_out. case_decide; [done |].
  match goal with |- context [Node.call_sinks ?l ?c ?st] =>
    pose proof (call_sinks_all_return l c st Hsinks) as Hnone;
    destruct (Node.call_sinks l c st) as [[e |] s3]
  end; simpl in *; done.
Qed.

End NodeFacts.

(* ------------------------------------------------------------------------- *)
(** ** The statements at concrete steps and graphs *)

Section Concrete.
Import Samples CursorSamples.

(** The test suite's step: the counter goes from 5 to 15. *)
Example add10_alone :
  pipe [add10] 7 None s0 = (Resolved, {| world := 15; events := [EvStep 0] |}).
Proof. reflexivity. Qed.

(** A step that withholds [next()] cuts the chain short, without error. *)
Example halt_truncates :
  pipe [halt; add10] 7 None s0 = (Resolved, {| world := 0; events := [EvStep 0] |}).
Proof. reflexivity. Qed.

(** A step that calls [next()] twice: the second call starts the step after
    the ones the first call ran; nothing runs twice. *)
Example twice_runs_each_once :
  pipe [twice; add10; halt; add10] 7 None s0 =
  (Resolved, {| world := 10; events := [EvStep 0; EvStep 1; EvStep 2; EvStep 3] |}).
Proof. reflexivity. Qed.

(** The token becomes signaled while the first step runs: its [next()]
    resolves and the two remaining steps are not started. *)
Example abort_during_run :
  pipe [add10; add10; add10] 7 (Some at15) s0 =
  (Resolved, {| world := 15; events := [EvStep 0] |}).
Proof. reflexivity. Qed.

(** Activation, steps, fan-out and sinks of one [touch], in program order. *)
Example touch_busy_node :
  Node.touch idle 0 busy_node 7 None s0 =
  (Resolved,
   {| world := 25;
      events := [EvPredicate 0 7; EvStep 0; EvStep 1; EvTouch 1 7;
                 EvPredicate 2 7; EvSink 1 7] |}).
Proof. reflexivity. Qed.

(** The cancellation statement at a frame and a state in which [at15] is
    signaled. *)
Lemma next_aborted_is_silent_witness :
  next 3 7 (Some at15) late_frame = (Resolved, late_frame) /\
  pipe [add10; add10] 7 (Some at15) late_state = (Resolved, late_state).
Proof.
  apply (next_aborted_is_silent 7 (Some at15) 2 late_frame [add10; add10] late_state);
    reflexivity.
Defined.

(** The failure statement at the chain [add10; twice; boom; add10]. *)
Lemma pipe_step_failure_witness :
  exists s',
    pipe ([add10; twice] ++ boom :: [add10]) 7 None s0 =
      (Rejected (Nat.iter 3 (chain_failure 7) (Thrown "boom"%string)), s') /\
    events s' = events s0 ++ (EvStep <$> seq 0 3) /\
    ([add10; twice] = [] ->
     pipe ([add10; twice] ++ boom :: [add10]) 7 None s0 =
       (Rejected
          (PipelineError
             [MiddlewareError [Thrown "boom"%string]
                (Some "Failed to execute processor"%string) (Some 7)]
             (Some "Failed to execute pipeline"%string) (Some 7)), s')).
Proof.
  apply (pipe_step_failure [add10; twice] [add10] boom 7 None s0 (Thrown "boom"%string)).
  - repeat constructor.
  - constructor.
  - reflexivity.
Defined.

(** Against claim C1 as stated.  In the chain [add10; boom; add10] the first
    step awaits [next()] and the second throws.  The third step is not
    started, but the rejection is not the two-level error around ["boom"]:
    the first step's [next()] wraps it once, and the executor's own [next()]
    wraps that result again, which gives four levels. *)
Lemma second_step_failure_is_wrapped_twice :
  Forall (fun p => relays (p 7)) [add10] /\
  fails_with (Thrown "boom"%string) (boom 7) /\
  pipe [add10; boom; add10] 7 None s0 =
    (Rejected (chain_failure 7 (chain_failure 7 (Thrown "boom"%string))),
     {| world := 15; events := [EvStep 0; EvStep 1] |}) /\
  (pipe [add10; boom; add10] 7 None s0).1 <>
    Rejected
      (PipelineError
         [MiddlewareError [Thrown "boom"%string]
            (Some "Failed to execute processor"%string) (Some 7)]
         (Some "Failed to execute pipeline"%string) (Some 7)).
Proof.
  split_and!.
  - repeat constructor.
  - constructor.
  - reflexivity.
  - vm_compute. discriminate.
Qed.

(** The ordering statement at node 0 of [abc] after [use(add10, dbl)],
    touched with the override [positive]: the counter goes from 5 to
    [(5 + 10) * 2]; the steps in the other order would leave [5 * 2 + 10]. *)
Lemma touch_runs_stack_in_order_witness :
  exists nd',
    Node.use 0 [add10; dbl] abc !! 0 = Some nd' /\
    Node.stack nd' = [] ++ [add10; dbl] /\
    Node.touch idle 0 nd' 7 (Some positive) s0 =
      Node.fan_out idle nd' 7
        {| world := 30;
           events := [EvPredicate 0 7] ++ (EvStep <$> seq 0 2) |} /\
    steps_of (events (Node.touch idle 0 nd' 7 (Some positive) s0).2) =
      steps_of (events s0) ++ seq 0 2.
Proof.
  apply (touch_runs_stack_in_order idle abc 0 (Node.new (init "A") "")
           [add10; dbl] 7 (Some positive) s0).
  - reflexivity.
  - right. eexists. split; reflexivity.
  - repeat constructor.
Defined.

(** Against claim C2 as stated.  The node is always active and has two
    steps; the first returns without calling [next()], so one [touch] starts
    step 0 only. *)
Lemma halting_step_hides_later_steps :
  Node.own_shouldActivate halting_node = Always /\
  length (Node.stack halting_node) = 2 /\
  Node.touch idle 0 halting_node 7 None s0 =
    (Resolved, {| world := 0; events := [EvStep 0] |}) /\
  steps_of (events (Node.touch idle 0 halting_node 7 None s0).2) <> [0; 1].
Proof.
  split_and!; try reflexivity. vm_compute. discriminate.
Qed.

(** The inactivity statement at nodes touched with the override [large]
    while the counter is 5. *)
Lemma touch_inactive_witness :
  Node.touch idle 0 busy_node 7 (Some large) s0 =
    (Resolved, log (EvPredicate 0 7) s0) /\
  NodeById.touch (fun ps ctx s => pipe ps ctx None s) idle 0
      node_with_throwing_sink_by_id 7 (Some large) s0 =
    (Resolved, log (EvPredicate 0 7) s0) /\
  world (log (EvPredicate 0 7) s0) = world s0 /\
  steps_of (events (log (EvPredicate 0 7) s0)) = steps_of (events s0) /\
  touches_of (events (log (EvPredicate 0 7) s0)) = touches_of (events s0) /\
  sinks_of (events (log (EvPredicate 0 7) s0)) = sinks_of (events s0).
Proof.
  apply (touch_inactive idle (fun ps ctx s => pipe ps ctx None s) 0 busy_node
           node_with_throwing_sink_by_id 7 (Some large) (Some large) s0);
    reflexivity.
Defined.

(** The overwrite statement at node 0 of [chain], which already has an
    output. *)
Lemma link_twice_overwrites_witness :
  (exists A',
      Node.link 0 2 (Some large) (Node.link 0 2 (Some positive) chain) !! 0 = Some A' /\
      JSMap.at_key 2 (Node.outputs A') = [(2, large)]) /\
  (exists GA',
      NodeById.link 0 2 (Some large) (NodeById.link 0 2 (Some positive) chain_by_id) !! 0
        = Some GA' /\
      JSMap.at_key "C"%string (NodeById.outputs GA') =
        [("C"%string,
          {| NodeById.node := 2; NodeById.out_shouldActivate := Some large |})]).
Proof.
  apply (link_twice_overwrites chain chain_by_id 0 2
           {| Node.id := "A"%string; Node.own_shouldActivate := Always;
              Node.stack := []; Node.outputs := [(1, Always)]; Node.sinks := [] |}
           {| NodeById.id := "A"%string; NodeById.own_shouldActivate := Always;
              NodeById.stack := [];
              NodeById.outputs :=
                [("B"%string,
                  {| NodeById.node := 1; NodeById.out_shouldActivate := None |})];
              NodeById.sinks := [] |}
           (NodeById.new (init_by_id "C") "") positive large).
  - reflexivity.
  - apply NoDup_singleton.
  - reflexivity.
  - reflexivity.
  - apply NoDup_singleton.
Defined.

(** Against claim C8 as stated.  In the edition with [use], two distinct
    node objects created with the same id ["B"] are linked as two entries, and
    [unlink] of the second leaves the entry of the first in place. *)
Lemma twins_are_linked_separately :
  Node.id <$> twins !! 1 = Some "B"%string /\
  Node.id <$> twins !! 2 = Some "B"%string /\
  Node.outputs <$> Node.link 0 2 None (Node.link 0 1 None twins) !! 0 =
    Some [(1, Always); (2, Always)] /\
  Node.outputs <$> Node.unlink 0 2 (Node.link 0 1 None twins) !! 0 =
    Some [(1, Always)].
Proof. split_and!; reflexivity. Qed.

(** The keying statement at the [twins]. *)
Lemma links_deduplicated_by_key_witness :
  (exists A',
      Node.link 0 2 (Some positive) (Node.link 0 1 None twins) !! 0 = Some A' /\
      JSMap.at_key 1 (Node.outputs A') = [(1, Always)] /\
      JSMap.at_key 2 (Node.outputs A') = [(2, positive)]) /\
  (exists A',
      Node.link 0 1 (Some positive) (Node.link 0 1 None twins) !! 0 = Some A' /\
      JSMap.at_key 1 (Node.outputs A') = [(1, positive)]) /\
  (exists A',
      Node.unlink 0 2 (Node.link 0 1 None twins) !! 0 = Some A' /\
      JSMap.at_key 1 (Node.outputs A') = [(1, Always)]) /\
  (exists A',
      Node.unlink 0 1 (Node.link 0 1 None twins) !! 0 = Some A' /\
      JSMap.at_key 1 (Node.outputs A') = []) /\
  (exists GA',
      NodeById.link 0 2 (Some positive) (NodeById.link 0 1 None twins_by_id) !! 0
        = Some GA' /\
      JSMap.at_key "B"%string (NodeById.outputs GA') =
        [("B"%string,
          {| NodeById.node := 2; NodeById.out_shouldActivate := Some positive |})]) /\
  (exists GA',
      NodeById.unlink 0 2 (NodeById.link 0 1 None twins_by_id) !! 0 = Some GA' /\
      JSMap.at_key "B"%string (NodeById.outputs GA') = []).
Proof.
  apply (links_deduplicated_by_key twins twins_by_id 0 1 2
           (Node.new (init "A") "") (NodeById.new (init_by_id "A") "")
           (NodeById.new (init_by_id "B") "") (NodeById.new (init_by_id "B") "")
           None (Some positive)).
  - reflexivity.
  - apply NoDup_nil_2.
  - lia.
  - reflexivity.
  - reflexivity.
  - reflexivity.
  - apply NoDup_nil_2.
  - reflexivity.
Defined.


(** Claim C6, where the code departs from it.  The node's own chain resolves,
    yet [touch] rejects with the value thrown by a sink that is a plain
    (non-async) function: the call [sink(ctx)] sits inside [map], before
    [Promise.allSettled] gets hold of anything, so the exception leaves
    [touch] itself.  The sink registered after it is never called.  Both
    editions. *)
Theorem touch_rejects_when_sink_throws :
  pipe (Node.stack node_with_throwing_sink) 7 None s0 =
    (Resolved, {| world := 15; events := [EvStep 0] |}) /\
  Node.touch idle 0 node_with_throwing_sink 7 None s0 =
    (Rejected (Thrown "boom"%string),
     {| world := 15; events := [EvStep 0; EvTouch 1 7; EvSink 0 7] |}) /\
  NodeById.touch (fun ps ctx s => pipe ps ctx None s) idle 0
      node_with_throwing_sink_by_id 7 None s0 =
    (Rejected (Thrown "boom"%string),
     {| world := 15; events := [EvStep 0; EvTouch 1 7; EvSink 0 7] |}).
Proof. split_and!; reflexivity. Qed.

End Concrete.

(* ------------------------------------------------------------------------- *)
(** ** More about the executor *)

Section MorePipeFacts.
Context {T World V : Type}.

Local Abbreviation Error := (Error T V).
Local Abbreviation Outcome := (Outcome T V).
Local Abbreviation Body := (Body T World V).
Local Abbreviation Processor := (Processor T World V).
Local Abbreviation State := (State T World).
Local Abbreviation Frame := (Frame T World V).

Implicit Types (fr : Frame) (b : Body) (o : Outcome) (s : State)
  (nxt : Frame -> Outcome * Frame) (ctx : T)
  (signal : option (AbortSignal World)).

(** One unfolding of [next] on a stack that is not empty, token not
    signaled. *)
Lemma next_shift fuel ctx signal fr (p : Processor) rest :
  signal_aborted signal (world (state fr)) = false ->
  stack fr = p :: rest ->
  next (S fuel) ctx signal fr =
  match run_body (next fuel ctx signal) (p ctx)
          {| stack := rest; shifted := S (shifted fr);
             state := log (EvStep (shifted fr)) (state fr) |} with
  | (Rejected error, fr2) => (Rejected (chain_failure ctx error), fr2)
  | settled => settled
  end.
Proof. intros Hsig Hst. simpl. by rewrite Hsig, Hst. Qed.

(** Whatever the steps do, the executor rejects only with what [next] builds
    in its [catch]: a [PipelineError] whose single cause is a
    [MiddlewareError], both carrying [ctx].  A step's own error, or a
    cancellation, never comes out bare. *)
Theorem pipe_rejection_is_chain_failure (processors : list Processor) ctx signal s error :
  (pipe processors ctx signal s).1 = Rejected error ->
  exists cause, error = chain_failure ctx cause.
Proof.
  unfold pipe. simpl.
  destruct (signal_aborted signal (world s)); [done |].
  destruct processors as [| p rest]; [done |].
  destruct (run_body _ _ _) as [[| cause |] fr]; simpl; try done.
  intros [= <-]. by exists cause.
Qed.

Lemma run_body_calm ctx nxt b :
  calm b ->
  (forall fr, all_calm ctx fr ->
     all_calm ctx (nxt fr).2 /\ forall error, (nxt fr).1 <> Rejected error) ->
  forall fr, all_calm ctx fr ->
    all_calm ctx (run_body nxt b fr).2 /\
    forall error, (run_body nxt b fr).1 <> Rejected error.
Proof.
  intros Hcalm Hnxt.
  induction Hcalm as [| f k _ IH | k _ IH | k handler _ IH]; intros fr Hfr; simpl.
  - done.
  - by apply IH.
  - by apply IH.
  - destruct (Hnxt fr Hfr) as [Hst Hrej].
    destruct (nxt fr) as [[| error |] fr']; simpl in *.
    + by apply IH.
    + by destruct (Hrej error).
    + done.
Qed.

Lemma next_calm fuel ctx signal fr :
  all_calm ctx fr ->
  all_calm ctx (next fuel ctx signal fr).2 /\
  forall error, (next fuel ctx signal fr).1 <> Rejected error.
Proof.
  revert fr. induction fuel as [| fuel IH]; intros fr Hfr; simpl; [done |].
  destruct (signal_aborted signal (world (state fr))); [done |].
  destruct (stack fr) as [| p rest] eqn:Hst; [done |].
  unfold all_calm in Hfr. rewrite Hst in Hfr. apply Forall_cons in Hfr as [Hp Hrest].
  match goal with |- context [run_body ?n ?b ?f] =>
    destruct (run_body_calm ctx n b Hp IH f Hrest) as [Hcalm Hrej];
    destruct (run_body n b f) as [[| error |] fr1]
  end; simpl in *; try done.
  by destruct (Hrej error).
Qed.

(** Errors only come from steps: if no step throws of its own accord, the
    executor resolves, whether or not the token is signaled, however often
    (or never) the steps call [next()] and whatever their handlers are. *)
Theorem pipe_resolves_when_no_step_throws (processors : list Processor) ctx signal s :
  Forall (fun p => calm (p ctx)) processors ->
  (pipe processors ctx signal s).1 = Resolved.
Proof.
  intros Hcalm. unfold pipe.
  pose proof (next_settles (S (length processors)) ctx signal
                {| stack := processors; shifted := 0; state := s |}) as Hfuel.
  destruct (next_calm (S (length processors)) ctx signal
              {| stack := processors; shifted := 0; state := s |} Hcalm) as [_ Hrej].
  destruct (next _ _ _ _) as [[| error |] fr]; simpl in *.
  - done.
  - by destruct (Hrej error).
  - destruct Hfuel; [lia | done].
Qed.

Lemma run_quiet nxt b fr :
  quiet b -> exists w, run_body nxt b fr = (Resolved, with_world w fr).
Proof.
  intros Hq. revert fr. induction Hq as [| f k _ IH | k _ IH]; intros fr; simpl.
  - exists (world (state fr)). by rewrite with_world_same.
  - destruct (IH (frame_act f fr)) as [w Hw]. exists w. by rewrite Hw.
  - apply IH.
Qed.

(** A body that forwards once makes its call of [next()] in the world that
    [world_at_next] computes, and returns if that call resolves. *)
Lemma run_forwards_once nxt b fr :
  forwards_once b ->
  exists w,
    world_at_next b (world (state fr)) = Some w /\
    forall fr',
      nxt (with_world w fr) = (Resolved, fr') ->
      exists w', run_body nxt b fr = (Resolved, with_world w' fr').
Proof.
  intros Hf. revert fr.
  induction Hf as [f k _ IH | k _ IH | k handler Hq]; intros fr; simpl.
  - destruct (IH (frame_act f fr)) as (w & Hw & Hrun). by exists w.
  - apply IH.
  - exists (world (state fr)). split; [done |]. rewrite with_world_same.
    intros fr' Hcall. rewrite Hcall. by apply run_quiet.
Qed.

Lemma next_truncated ctx signal (pre : list Processor) :
  forall (pk : Processor) (post : list Processor) fuel c s,
    Forall (fun p => forwards_once (p ctx)) pre ->
    quiet (pk ctx) ->
    (forall w, signal_aborted signal w = false) ->
    length pre < fuel ->
    exists w,
      next fuel ctx signal {| stack := pre ++ pk :: post; shifted := c; state := s |} =
      (Resolved,
       {| stack := post; shifted := c + S (length pre);
          state := {| world := w;
                      events := events s ++ (EvStep <$> seq c (S (length pre))) |} |}).
Proof.
  induction pre as [| p pre IH]; intros pk post fuel c s Hpre Hpk Hsig Hfuel;
    (destruct fuel as [| fuel]; [lia |]); simpl; rewrite Hsig.
  - destruct (run_quiet (next fuel ctx signal) (pk ctx)
      {| stack := post; shifted := S c; state := log (EvStep c) s |} Hpk) as [w ->].
    exists w. unfold with_world. simpl. do 3 f_equal. lia.
  - apply Forall_cons in Hpre as [Hp Hpre]. simpl in Hfuel.
    destruct (run_forwards_once (next fuel ctx signal) (p ctx)
      {| stack := pre ++ pk :: post; shifted := S c; state := log (EvStep c) s |} Hp)
      as (w & _ & Hrun).
    destruct (IH pk post fuel (S c) (set_world w (log (EvStep c) s)) Hpre Hpk Hsig)
      as [w' Hnext]; [lia |].
    destruct (Hrun _ Hnext) as [w'' ->].
    exists w''. unfold with_world. simpl. do 3 f_equal; [lia |].
    by rewrite <- app_assoc.
Qed.

(** A step that returns without calling [next()] ends the run without error:
    with steps before it that each await [next()] once, the executor
    resolves having started exactly the steps up to and including that one;
    those after it are never started. *)
Theorem pipe_stops_at_step_without_next (pre post : list Processor) (pk : Processor)
    ctx signal s :
  Forall (fun p => forwards_once (p ctx)) pre ->
  quiet (pk ctx) ->
  (forall w, signal_aborted signal w = false) ->
  exists w,
    pipe (pre ++ pk :: post) ctx signal s =
    (Resolved,
     {| world := w; events := events s ++ (EvStep <$> seq 0 (S (length pre))) |}).
Proof.
  intros Hpre Hpk Hsig. unfold pipe.
  destruct (next_truncated ctx signal pre pk post
              (S (length (pre ++ pk :: post))) 0 s Hpre Hpk Hsig) as [w ->].
  { rewrite length_app. simpl. lia. }
  by exists w.
Qed.

Lemma run_catches nxt b fr :
  catches b ->
  exists w, forall error fr',
    nxt (with_world w fr) = (Rejected error, fr') ->
    exists w', run_body nxt b fr = (Resolved, with_world w' fr').
Proof.
  intros Hc. revert fr.
  induction Hc as [f k _ IH | k _ IH | k handler Hq]; intros fr; simpl.
  - destruct (IH (frame_act f fr)) as [w Hw]. by exists w.
  - apply IH.
  - exists (world (state fr)). rewrite with_world_same.
    intros error fr' Hcall. rewrite Hcall. by apply run_quiet.
Qed.

(** A rejection can be caught upstream.  If the first step catches the
    rejection of its [next()] and returns, the steps between it and the
    failing one relay, and the failing step throws, then the executor
    resolves; the steps after the failing one are never started. *)
Theorem pipe_rejection_can_be_caught (guard pk : Processor) (pre post : list Processor)
    ctx signal s error :
  catches (guard ctx) ->
  Forall (fun p => relays (p ctx)) pre ->
  fails_with error (pk ctx) ->
  (forall w, signal_aborted signal w = false) ->
  exists w,
    pipe (guard :: pre ++ pk :: post) ctx signal s =
    (Resolved,
     {| world := w; events := events s ++ (EvStep <$> seq 0 (S (S (length pre)))) |}).
Proof.
  intros Hguard Hpre Hpk Hsig. unfold pipe.
  rewrite (next_shift _ _ _ _ guard (pre ++ pk :: post)) by done.
  cbn [length stack shifted state].
  destruct (run_catches
    (next (S (length (pre ++ pk :: post))) ctx signal) (guard ctx)
    {| stack := pre ++ pk :: post; shifted := 1; state := log (EvStep 0) s |} Hguard)
    as [w Hrun].
  destruct (next_step_failure ctx signal error pre pk post
    (S (length (pre ++ pk :: post))) 1 (set_world w (log (EvStep 0) s)) Hpre Hpk Hsig)
    as [w' Hnext].
  { rewrite length_app. simpl. lia. }
  destruct (Hrun _ _ Hnext) as [w'' ->].
  exists w''. unfold with_world. simpl. f_equal. f_equal.
  by rewrite <- app_assoc.
Qed.

Lemma next_around ctx signal (l : list ((World -> World) * (World -> World))) :
  forall fuel c s,
    (forall w, signal_aborted signal w = false) ->
    length l < fuel ->
    next fuel ctx signal
      {| stack := (fun fg => around (V:=V) (T:=T) fg.1 fg.2) <$> l; shifted := c; state := s |} =
    (Resolved,
     {| stack := []; shifted := c + length l;
        state := {| world := around_all l (world s);
                    events := events s ++ (EvStep <$> seq c (length l)) |} |}).
Proof.
  induction l as [| [before after] l IH]; intros fuel c s Hsig Hfuel;
    (destruct fuel as [| fuel]; [lia |]); simpl; rewrite Hsig.
  - destruct s. simpl. by rewrite app_nil_r, Nat.add_0_r.
  - simpl in Hfuel. unfold frame_act at 1. simpl.
    rewrite IH by (done || lia). simpl.
    unfold frame_act. simpl. do 3 f_equal; [lia |].
    by rewrite <- app_assoc.
Qed.

(** Steps of the form [before; await next(); after] nest: the [before] parts
    run in stack order, then the [after] parts in reverse order, and every
    step is started once. *)
Theorem pipe_runs_around_steps_inside_out
    (l : list ((World -> World) * (World -> World))) ctx s :
  pipe ((fun fg => around (V:=V) fg.1 fg.2) <$> l) ctx None s =
  (Resolved,
   {| world := around_all l (world s);
      events := events s ++ (EvStep <$> seq 0 (length l)) |}).
Proof.
  unfold pipe. rewrite length_fmap.
  rewrite next_around by (done || lia). done.
Qed.


End MorePipeFacts.

(* ------------------------------------------------------------------------- *)
(** ** The cursor of one invocation *)

Section CursorFacts.
Context {T World V : Type}.

Local Abbreviation Error := (Error T V).
Local Abbreviation Outcome := (Outcome T V).
Local Abbreviation Body := (Body T World V).
Local Abbreviation Processor := (Processor T World V).
Local Abbreviation State := (State T World).
Local Abbreviation Frame := (Frame T World V).

Implicit Types (fr : Frame) (b : Body) (o : Outcome) (s : State)
  (nxt : Frame -> Outcome * Frame) (ctx : T)
  (signal : option (AbortSignal World)) (marks : World -> list nat).

(** A body that keeps the marks keeps the invariant, if [next()] does. *)
Lemma run_body_keeps marks (processors : list Processor) before nxt b :
  keeps marks b ->
  (forall fr, marks_follow_cursor marks processors before fr ->
              marks_follow_cursor marks processors before (nxt fr).2) ->
  forall fr, marks_follow_cursor marks processors before fr ->
             marks_follow_cursor marks processors before (run_body nxt b fr).2.
Proof.
  intros Hk Hnxt.
  induction Hk as [| e | f k Hf _ IH | k _ IH | k handler _ IHk _ IHh];
    intros fr Hfr; simpl.
  - done.
  - done.
  - apply IH. destruct Hfr as [Hst Hm]. split; [done |]. simpl. by rewrite Hf.
  - by apply IH.
  - specialize (Hnxt fr Hfr).
    destruct (nxt fr) as [[| error |] fr1]; simpl in *; [by apply IHk | by apply IHh | done].
Qed.

(** What is at the head of the stack is the step at the cursor. *)
Lemma head_at_cursor (processors : list Processor) c p rest :
  drop c processors = p :: rest ->
  processors !! c = Some p /\ rest = drop (S c) processors.
Proof.
  intros Hdrop.
  assert (processors !! c = Some p) as Hp.
  { rewrite <- (Nat.add_0_r c), <- lookup_drop, Hdrop. done. }
  split; [done |]. rewrite (drop_S _ _ _ Hp) in Hdrop. congruence.
Qed.

(** Every call of [next()] keeps the invariant: a step is run only by the
    shift that takes it off the stack, and its mark is its index. *)
Lemma next_marks marks (processors : list Processor) before fuel ctx signal :
  (forall i p, processors !! i = Some p -> announces marks i (p ctx)) ->
  forall fr, marks_follow_cursor marks processors before fr ->
             marks_follow_cursor marks processors before (next fuel ctx signal fr).2.
Proof.
  intros Hann. induction fuel as [| fuel IH]; intros fr Hfr; simpl; [done |].
  destruct (signal_aborted signal (world (state fr))); [done |].
  destruct (stack fr) as [| p rest] eqn:Hst; [done |].
  destruct Hfr as [Hstack Hmarks]. rewrite Hst in Hstack.
  symmetry in Hstack. apply head_at_cursor in Hstack as [Hp ->].
  destruct (Hann _ _ Hp) as (f & k & -> & Hf & Hk).
  cbn [run_body].
  assert (marks_follow_cursor marks processors before
            (frame_act f {| stack := drop (S (shifted fr)) processors;
                            shifted := S (shifted fr);
                            state := log (EvStep (shifted fr)) (state fr) |}))
    as Hstart.
  { split; [done |]. cbn [frame_act state world set_world log shifted].
    by rewrite Hf, Hmarks, seq_S, app_assoc. }
  pose proof (run_body_keeps marks processors before _ k Hk IH _ Hstart) as Hrun.
  by destruct (run_body _ k _) as [[| error |] fr1].
Qed.

(** [j] calls of [next()] over steps that return without calling it: each
    call takes one step off the stack and runs it, until none is left. *)
Lemma run_calls ctx signal fuel j :
  forall fr,
    Forall (fun p : Processor => quiet (p ctx)) (stack fr) ->
    (forall w, signal_aborted signal w = false) ->
    length (stack fr) < fuel ->
    exists fr',
      run_body (next fuel ctx signal) (call_next_times j) fr = (Resolved, fr') /\
      shifted fr' = shifted fr + min j (length (stack fr)).
Proof.
  induction j as [| j IH]; intros fr Hq Hsig Hfuel; simpl.
  - exists fr. split; [done | lia].
  - destruct fuel as [| fuel]; [lia |].
    destruct (stack fr) as [| q rest] eqn:Hst.
    + rewrite next_exhausted by done.
      destruct (IH fr) as (fr' & Hrun & Hsh); [by rewrite Hst | done | rewrite Hst; simpl; lia |].
      exists fr'. split; [done |]. rewrite Hsh, Hst. simpl. lia.
    + apply Forall_cons in Hq as [Hq Hrest]. simpl in Hfuel.
      rewrite (next_shift _ _ _ _ q rest) by done.
      destruct (run_quiet (next fuel ctx signal) (q ctx)
        {| stack := rest; shifted := S (shifted fr);
           state := log (EvStep (shifted fr)) (state fr) |} Hq) as [w ->].
      destruct (IH (with_world w
        {| stack := rest; shifted := S (shifted fr);
           state := log (EvStep (shifted fr)) (state fr) |})) as (fr' & Hrun & Hsh);
        [done | done | simpl; lia |].
      exists fr'. split; [done |]. rewrite Hsh. simpl. lia.
Qed.

(** Claim C10.  Let every step announce itself: the first thing step [i]
    does, each time it is run, is to add the mark [i] to a list kept in the
    world, which nothing else touches.  Whatever else the steps do with
    [next()] (call it several times, catch what it throws, throw
    themselves), one invocation of the executor settles, and the marks it
    has added are [0, 1, ..., m-1] for some [m <= length processors]: no step
    has run twice and the log of started steps says the same.  The cursor
    consumes one step per call of [next()]: when the first step calls
    [next()] [j] times and the other steps return without calling it, the
    steps run are the first and [min j (length rest)] of the others, once
    each.  Once the private stack is empty a further [next()] resolves at
    once and changes nothing. *)
Theorem pipe_each_step_at_most_once marks (processors : list Processor)
    ctx signal s :
  (forall i p, processors !! i = Some p -> announces marks i (p ctx)) ->
  (exists m,
      m <= length processors /\
      (pipe processors ctx signal s).1 <> OutOfFuel /\
      events (pipe processors ctx signal s).2 = events s ++ (EvStep <$> seq 0 m) /\
      marks (world (pipe processors ctx signal s).2) = marks (world s) ++ seq 0 m) /\
  (forall (first : Processor) rest f j,
      processors = first :: rest ->
      first ctx = Act f (call_next_times j) ->
      Forall (fun p => quiet (p ctx)) rest ->
      (forall w, signal_aborted signal w = false) ->
      (pipe processors ctx signal s).1 = Resolved /\
      marks (world (pipe processors ctx signal s).2) =
        marks (world s) ++ seq 0 (S (min j (length rest)))) /\
  (forall fuel c s',
      next (S fuel) ctx signal
        {| stack := ([] : list Processor); shifted := c; state := s' |} =
      (Resolved, {| stack := []; shifted := c; state := s' |})).
Proof.
  intros Hann.
  assert (marks_follow_cursor marks processors (marks (world s))
            {| stack := processors; shifted := 0; state := s |}) as Hstart.
  { split; simpl; [done | by rewrite app_nil_r]. }
  pose proof (next_marks marks processors (marks (world s))
                (S (length processors)) ctx signal Hann _ Hstart) as [_ Hmarks].
  split_and!.
  - unfold pipe in *.
    pose proof (next_settles (S (length processors)) ctx signal
                  {| stack := processors; shifted := 0; state := s |}) as Hfuel.
    destruct (next _ _ _ _) as [o fr] eqn:Hnext.
    apply next_advances in Hnext as (consumed & Hst & Hsh & Hev). simpl in *.
    exists (length consumed). split_and!.
    + rewrite Hst, length_app. lia.
    + apply Hfuel. lia.
    + done.
    + by rewrite Hmarks, Hsh.
  - intros first rest f j -> Hfirst Hquiet Hsig. unfold pipe in *.
    cbn [length] in *.
    rewrite (next_shift _ _ _ _ first rest) in * by done.
    rewrite Hfirst in *. cbn [run_body stack shifted state] in *.
    destruct (run_calls ctx signal (S (length rest)) j
      (frame_act f {| stack := rest; shifted := 1; state := log (EvStep 0) s |}))
      as (fr' & Hrun & Hsh); [done | done | simpl; lia |].
    rewrite Hrun in *. simpl in Hsh, Hmarks |- *. split; [done |].
    by rewrite Hmarks, Hsh.
  - intros fuel c s'. simpl. by destruct (signal_aborted _ _).
Qed.

End CursorFacts.

(* ------------------------------------------------------------------------- *)
(** ** More about maps and the store *)

Section MoreMapFacts.
Context {K V : Type} `{EqDecision K}.
Implicit Types (k : K) (v : V) (m : list (K * V)).

Lemma delete_absent k m : k ∉ JSMap.keys m -> JSMap.delete k m = m.
Proof.
  unfold JSMap.keys, JSMap.delete. induction m as [| [k' v'] m IH]; [done |].
  rewrite fmap_cons, not_elem_of_cons. cbn [fst]. intros [Hne Hnotin].
  rewrite filter_cons_True by (simpl; congruence). by rewrite IH.
Qed.

Lemma delete_set_absent k v m :
  k ∉ JSMap.keys m -> JSMap.delete k (JSMap.set k v m) = m.
Proof.
  unfold JSMap.keys, JSMap.delete. induction m as [| [k' v'] m IH].
  - intros _. simpl. by rewrite filter_cons_False by (simpl; tauto).
  - rewrite fmap_cons, not_elem_of_cons. cbn [fst JSMap.set]. intros [Hne Hnotin].
    rewrite decide_False by congruence.
    rewrite filter_cons_True by (simpl; congruence). by rewrite IH.
Qed.

Lemma keys_delete k m :
  JSMap.keys (JSMap.delete k m) = filter (fun k' => k' <> k) (JSMap.keys m).
Proof.
  unfold JSMap.keys, JSMap.delete. induction m as [| [k' v'] m IH]; [done |].
  rewrite fmap_cons, !filter_cons. cbn [fst].
  destruct (decide (k' <> k)); [rewrite fmap_cons |]; by rewrite IH.
Qed.

Lemma elem_of_keys_set r k v m :
  r ∈ JSMap.keys (JSMap.set k v m) <-> r = k \/ r ∈ JSMap.keys m.
Proof.
  rewrite keys_set. case_decide as Hin.
  - split; [by right | intros [-> | ?]; done].
  - rewrite elem_of_app, list_elem_of_singleton. tauto.
Qed.

End MoreMapFacts.

Section StoreFacts.
Context {T World V : Type}.

Local Abbreviation Processor := (Processor T World V).
Local Abbreviation ShouldActivate := (ShouldActivate T World).
Local Abbreviation Sink := (Sink T World V).
Local Abbreviation Node := (Node.Node T World V).
Local Abbreviation Heap := (Node.Heap T World V).

Implicit Types (h : Heap) (this a b : NodeRef) (nd : Node) (sk : Sink).

Lemma length_update h this f : length (Node.update this f h) = length h.
Proof. unfold Node.update. destruct (h !! this); [apply length_insert | done]. Qed.

Lemma update_update h this f g :
  Node.update this f (Node.update this g h) = Node.update this (f ∘ g) h.
Proof.
  unfold Node.update. destruct (h !! this) as [nd |] eqn:Hnd.
  - rewrite list_lookup_insert_eq by (by eapply lookup_lt_Some).
    by rewrite list_insert_insert_eq.
  - by rewrite Hnd.
Qed.

Lemma update_same h this f :
  (forall nd, h !! this = Some nd -> f nd = nd) -> Node.update this f h = h.
Proof.
  intros Hf. unfold Node.update. destruct (h !! this) as [nd |] eqn:Hnd; [| done].
  rewrite (Hf nd eq_refl). by apply list_insert_id.
Qed.

Lemma update_ext h this f g :
  (forall nd, h !! this = Some nd -> f nd = g nd) ->
  Node.update this f h = Node.update this g h.
Proof.
  intros Hfg. unfold Node.update. destruct (h !! this) as [nd |] eqn:Hnd; [| done].
  by rewrite (Hfg nd eq_refl).
Qed.

Lemma update_Forall (P : Node -> Prop) h this f :
  Forall P h -> (forall nd, P nd -> P (f nd)) -> Forall P (Node.update this f h).
Proof.
  intros Hall Hf. unfold Node.update.
  destruct (h !! this) as [nd |] eqn:Hnd; [| done].
  apply Forall_insert; [done |]. apply Hf.
  by eapply Forall_lookup_1.
Qed.

Lemma NoDup_set_add sk (l : list Sink) :
  NoDup (sink_ref <$> l) -> NoDup (sink_ref <$> Node.set_add sk l).
Proof.
  intros Hnd. unfold Node.set_add. case_decide as Hin; [done |].
  rewrite fmap_app. apply NoDup_app. split_and!; [done | | apply NoDup_singleton].
  intros x Hx ->%list_elem_of_singleton. done.
Qed.

Lemma refs_set_delete sk (l : list Sink) :
  sink_ref <$> Node.set_delete sk l =
  filter (fun r => r <> sink_ref sk) (sink_ref <$> l).
Proof.
  unfold Node.set_delete. induction l as [| x l IH]; [done |].
  rewrite fmap_cons, !filter_cons.
  destruct (decide (sink_ref x <> sink_ref sk)); [rewrite fmap_cons |]; by rewrite IH.
Qed.

Lemma set_delete_absent sk (l : list Sink) :
  sink_ref sk ∉ sink_ref <$> l -> Node.set_delete sk l = l.
Proof.
  unfold Node.set_delete. induction l as [| x l IH]; [done |].
  rewrite fmap_cons, not_elem_of_cons. intros [Hne Hnotin].
  rewrite filter_cons_True by congruence. by rewrite IH.
Qed.

(** Every store that programs can build keeps each node's outputs a map and
    its sinks a set (no key and no function object twice), and every output
    refers to an object of the store. *)
Theorem built_heap_is_well_formed h :
  built h ->
  Forall well_formed h /\
  Forall (fun nd => Forall (fun r => r < length h) (JSMap.keys (Node.outputs nd))) h.
Proof.
  intros Hb.
  induction Hb as [| h init uuid _ [IHw IHr] | h this ps _ [IHw IHr]
                   | h this node sa _ [IHw IHr] Hlive | h this node _ [IHw IHr]
                   | h this _ [IHw IHr] | h this sk _ [IHw IHr] | h this sk _ [IHw IHr]
                   | h this _ [IHw IHr] | h this _ [IHw IHr]].
  - split; constructor.
  - simpl. rewrite length_app. simpl. split.
    + apply Forall_app. split; [done |]. apply Forall_singleton.
      split; simpl; constructor.
    + apply Forall_app. split; [| by apply Forall_singleton; constructor].
      eapply Forall_impl; [exact IHr |]. intros nd Hnd.
      eapply Forall_impl; [exact Hnd |]. simpl. lia.
  - unfold Node.use. rewrite length_update. split; by apply update_Forall.
  - unfold Node.link. rewrite length_update. split; apply update_Forall; try done.
    + intros nd [Ho Hs]. split; simpl; [by apply NoDup_keys_set | done].
    + intros nd Hnd. simpl. apply Forall_forall. intros r Hr.
      apply elem_of_keys_set in Hr as [-> | Hr]; [done |].
      by eapply Forall_forall in Hnd.
  - unfold Node.unlink. rewrite length_update. split; apply update_Forall; try done.
    + intros nd [Ho Hs]. split; simpl; [| done].
      rewrite keys_delete. by apply NoDup_filter.
    + intros nd Hnd. simpl. rewrite keys_delete. apply Forall_forall.
      intros r [_ Hr]%list_elem_of_filter. by eapply Forall_forall in Hnd.
  - unfold Node.unlinkAll. rewrite length_update. split; apply update_Forall; try done.
    intros nd [Ho Hs]. split; simpl; [constructor | done].
  - unfold Node.sink. rewrite length_update. split; apply update_Forall; try done.
    intros nd [Ho Hs]. split; simpl; [done | by apply NoDup_set_add].
  - unfold Node.unsink. rewrite length_update. split; apply update_Forall; try done.
    intros nd [Ho Hs]. split; simpl; [done |].
    rewrite refs_set_delete. by apply NoDup_filter.
  - unfold Node.clearStack. rewrite length_update. split; by apply update_Forall.
  - unfold Node.clearSinks. rewrite length_update. split; apply update_Forall; try done.
    intros nd [Ho Hs]. split; simpl; [done | constructor].
Qed.

(** [unlink] undoes [link] for a node that was not linked before, and is a
    no-op for a node that is not linked: in both cases the store is the one
    before. *)
Theorem link_then_unlink h a b (A : Node) (sa : option ShouldActivate) :
  h !! a = Some A ->
  b ∉ JSMap.keys (Node.outputs A) ->
  Node.unlink a b (Node.link a b sa h) = h /\
  Node.unlink a b h = h.
Proof.
  intros HA Hb. unfold Node.unlink, Node.link. split.
  - rewrite update_update. apply update_same.
    intros nd Hnd. rewrite HA in Hnd. injection Hnd as <-.
    simpl. rewrite delete_set_absent by done. by destruct A.
  - apply update_same.
    intros nd Hnd. rewrite HA in Hnd. injection Hnd as <-.
    rewrite delete_absent by done. by destruct A.
Qed.

(** [use] appends: two calls amount to one call with the steps of both, a
    call without steps changes nothing, and after [clearStack] the stack is
    exactly what [use] is given. *)
Theorem use_appends h this (ps1 ps2 : list Processor) :
  Node.use this ps2 (Node.use this ps1 h) = Node.use this (ps1 ++ ps2) h /\
  Node.use this [] h = h /\
  Node.stack <$> Node.use this ps1 (Node.clearStack this h) !! this =
    (fun _ => ps1) <$> h !! this.
Proof.
  unfold Node.use, Node.clearStack. split_and!.
  - rewrite update_update. apply update_ext. intros nd _. simpl.
    by rewrite app_assoc.
  - apply update_same. intros nd _. rewrite app_nil_r. by destruct nd.
  - rewrite update_update. destruct (h !! this) as [nd |] eqn:Hnd.
    + by rewrite (update_lookup _ _ _ nd Hnd).
    + unfold Node.update. rewrite Hnd. by rewrite Hnd.
Qed.

(** Sinks form a set of function objects: adding a sink twice is adding it
    once, adding one that is present changes nothing, [unsink] undoes the
    [sink] of one that was absent, and after [unsink] it is not among the
    node's sinks. *)
Theorem sinks_form_a_set h this (A : Node) sk :
  h !! this = Some A ->
  Node.sink this sk (Node.sink this sk h) = Node.sink this sk h /\
  (sink_ref sk ∈ sink_ref <$> Node.sinks A -> Node.sink this sk h = h) /\
  (sink_ref sk ∉ sink_ref <$> Node.sinks A ->
   Node.unsink this sk (Node.sink this sk h) = h) /\
  (exists A',
      Node.unsink this sk h !! this = Some A' /\
      sink_ref sk ∉ sink_ref <$> Node.sinks A').
Proof.
  intros HA. unfold Node.sink, Node.unsink. split_and!.
  - rewrite update_update. apply update_ext. intros nd _. simpl. f_equal.
    unfold Node.set_add at 1. case_decide as Hin; [done |].
    destruct Hin. unfold Node.set_add. case_decide; [done |].
    rewrite fmap_app. apply elem_of_app. right. by apply list_elem_of_singleton.
  - intros Hin. apply update_same. intros nd Hnd. rewrite HA in Hnd.
    injection Hnd as <-. unfold Node.set_add. rewrite decide_True by done.
    by destruct A.
  - intros Hnotin. rewrite update_update. apply update_same.
    intros nd Hnd. rewrite HA in Hnd. injection Hnd as <-. simpl.
    unfold Node.set_add. rewrite decide_False by done.
    unfold Node.set_delete. rewrite filter_app, filter_cons_False by tauto.
    fold (Node.set_delete sk (Node.sinks A)).
    rewrite set_delete_absent by done. simpl. rewrite app_nil_r. by destruct A.
  - eexists. split; [by apply update_lookup |]. simpl.
    rewrite refs_set_delete, list_elem_of_filter. tauto.
Qed.

End StoreFacts.

(* ------------------------------------------------------------------------- *)
(** ** More about [touch] *)

Section MoreTouchFacts.
Context {T World V : Type}.

Local Abbreviation Error := (Error T V).
Local Abbreviation Outcome := (Outcome T V).
Local Abbreviation Processor := (Processor T World V).
Local Abbreviation ShouldActivate := (ShouldActivate T World).
Local Abbreviation Sink := (Sink T World V).
Local Abbreviation State := (State T World).
Local Abbreviation Node := (Node.Node T World V).
Local Abbreviation Heap := (Node.Heap T World V).
Local Abbreviation NodeI := (NodeById.Node T World V).
Local Abbreviation Output := (NodeById.Output T World).

Implicit Types (h : Heap) (s : State) (ctx : T) (nd : Node)
  (this : NodeRef) (spawn : NodeRef -> T -> World -> World).

(** What one more event adds to each of the three readings of a log. *)
Lemma steps_of_snoc (l : list (Event T)) e :
  steps_of (l ++ [e]) = steps_of l ++ match e with EvStep i => [i] | _ => [] end.
Proof. unfold steps_of. rewrite omap_app. by destruct e. Qed.

Lemma touches_of_snoc (l : list (Event T)) e :
  touches_of (l ++ [e]) =
  touches_of l ++ match e with EvTouch node _ => [node] | _ => [] end.
Proof. unfold touches_of. rewrite omap_app. by destruct e. Qed.

Lemma sinks_of_snoc (l : list (Event T)) e :
  sinks_of (l ++ [e]) = sinks_of l ++ match e with EvSink sk _ => [sk] | _ => [] end.
Proof. unfold sinks_of. rewrite omap_app. by destruct e. Qed.

Lemma touches_of_steps (l : list (Event T)) (steps : list nat) :
  touches_of (l ++ (EvStep <$> steps)) = touches_of l.
Proof.
  unfold touches_of. rewrite omap_app.
  assert (omap (fun e : Event T => match e with EvTouch node _ => Some node | _ => None end)
            (EvStep <$> steps) = []) as ->; [| by rewrite app_nil_r].
  by induction steps.
Qed.

Lemma sinks_of_steps (l : list (Event T)) (steps : list nat) :
  sinks_of (l ++ (EvStep <$> steps)) = sinks_of l.
Proof.
  unfold sinks_of. rewrite omap_app.
  assert (omap (fun e : Event T => match e with EvSink sk _ => Some sk | _ => None end)
            (EvStep <$> steps) = []) as ->; [| by rewrite app_nil_r].
  by induction steps.
Qed.

(** The executor logs steps and nothing else. *)
Lemma pipe_events (processors : list Processor) ctx signal s :
  exists m,
    events (pipe processors ctx signal s).2 = events s ++ (EvStep <$> seq 0 m).
Proof.
  unfold pipe. destruct (next _ _ _ _) as [o fr] eqn:Hnext.
  apply next_advances in Hnext as (consumed & _ & _ & Hev).
  by exists (length consumed).
Qed.

(** The activation rule reads the world, and logs at most a predicate call. *)
Lemma decision_spec (sa : ShouldActivate) (node : NodeRef) ctx s :
  (Node.shouldActivate (Some sa) node ctx s).1 = qualifies ctx (world s) (node, sa) /\
  world (Node.shouldActivate (Some sa) node ctx s).2 = world s /\
  touches_of (events (Node.shouldActivate (Some sa) node ctx s).2) =
    touches_of (events s) /\
  sinks_of (events (Node.shouldActivate (Some sa) node ctx s).2) = sinks_of (events s).
Proof.
  unfold qualifies. destruct sa as [| f]; simpl; [done |].
  by rewrite touches_of_snoc, sinks_of_snoc, !app_nil_r.
Qed.

Lemma touch_outputs_sinks spawn ctx (l : list (NodeRef * ShouldActivate)) s :
  sinks_of (events (foldl (Node.touch_output spawn ctx) s l)) = sinks_of (events s).
Proof.
  revert s. induction l as [| [node sa] l IH]; intros s; simpl; [done |].
  rewrite IH. unfold Node.touch_output. cbn [fst snd].
  destruct (decision_spec sa node ctx s) as (_ & _ & _ & Hs).
  destruct (Node.shouldActivate _ _ _ _) as [[] s1]; simpl in *; [| done].
  by rewrite sinks_of_snoc, app_nil_r.
Qed.

Lemma touch_outputs_touches spawn ctx w0 (l : list (NodeRef * ShouldActivate)) s :
  (forall e, e ∈ l ->
     forall node w, qualifies ctx (spawn node ctx w) e = qualifies ctx w e) ->
  (forall e, e ∈ l -> qualifies ctx (world s) e = qualifies ctx w0 e) ->
  touches_of (events (foldl (Node.touch_output spawn ctx) s l)) =
  touches_of (events s) ++ (filter (fun e => qualifies ctx w0 e = true) l).*1.
Proof.
  intros Hspawn. revert s. induction l as [| [node sa] l IH]; intros s Hq; simpl.
  - by rewrite app_nil_r.
  - unfold Node.touch_output at 2. cbn [fst snd].
    destruct (decision_spec sa node ctx s) as (Hd & Hw & Ht & _).
    rewrite (Hq (node, sa)) in Hd by left.
    rewrite filter_cons.
    destruct (Node.shouldActivate _ _ _ _) as [active s1]; simpl in Hd, Hw, Ht.
    subst active.
    destruct (qualifies ctx w0 (node, sa)) eqn:Hqual; simpl.
    + rewrite IH.
      * simpl. rewrite touches_of_snoc, Ht. simpl. by rewrite <- app_assoc.
      * intros e He. apply Hspawn. by right.
      * intros e He. simpl. rewrite Hspawn by (by right). rewrite Hw.
        apply Hq. by right.
    + rewrite IH.
      * by rewrite Ht.
      * intros e He. apply Hspawn. by right.
      * intros e He. rewrite Hw. apply Hq. by right.
Qed.

Lemma call_sinks_touches (l : list Sink) ctx s :
  touches_of (events (Node.call_sinks l ctx s).2) = touches_of (events s).
Proof.
  revert s. induction l as [| sk l IH]; intros s; simpl; [done |].
  destruct (sink_call sk ctx (world s)) as [r w].
  assert (touches_of (events (set_world w (log (EvSink (sink_ref sk) ctx) s))) =
          touches_of (events s)) as Hlog.
  { simpl. by rewrite touches_of_snoc, app_nil_r. }
  destruct r; [by rewrite IH | done].
Qed.

Lemma call_sinks_return (l : list Sink) ctx s :
  Forall (fun sk => forall x w, (sink_call sk x w).1 = SinkReturned) l ->
  (Node.call_sinks l ctx s).1 = None /\
  sinks_of (events (Node.call_sinks l ctx s).2) =
    sinks_of (events s) ++ (sink_ref <$> l).
Proof.
  intros Hall. revert s. induction Hall as [| sk l Hsk _ IH]; intros s; simpl.
  - by rewrite app_nil_r.
  - specialize (Hsk ctx (world s)).
    destruct (sink_call sk ctx (world s)) as [r w]. simpl in Hsk. subst r.
    destruct (IH (set_world w (log (EvSink (sink_ref sk) ctx) s))) as [-> ->].
    split; [done |]. simpl. rewrite sinks_of_snoc. by rewrite <- app_assoc.
Qed.

Lemma call_sinks_throw (before after : list Sink) (sk : Sink) ctx s error :
  Forall (fun sk => forall x w, (sink_call sk x w).1 = SinkReturned) before ->
  (forall w, (sink_call sk ctx w).1 = SinkThrew error) ->
  (Node.call_sinks (before ++ sk :: after) ctx s).1 = Some error /\
  sinks_of (events (Node.call_sinks (before ++ sk :: after) ctx s).2) =
    sinks_of (events s) ++ (sink_ref <$> before) ++ [sink_ref sk].
Proof.
  intros Hall Hthrow. revert s. induction Hall as [| sk0 l Hsk0 _ IH]; intros s; simpl.
  - specialize (Hthrow (world s)).
    destruct (sink_call sk ctx (world s)) as [r w]. simpl in Hthrow. subst r.
    split; [done |]. simpl. by rewrite sinks_of_snoc.
  - specialize (Hsk0 ctx (world s)).
    destruct (sink_call sk0 ctx (world s)) as [r w]. simpl in Hsk0. subst r.
    destruct (IH (set_world w (log (EvSink (sink_ref sk0) ctx) s))) as [-> ->].
    split; [done |]. simpl. rewrite sinks_of_snoc. by rewrite <- app_assoc.
Qed.

(** What an active [touch] whose chain resolves fans out to, when no sink
    throws, no predicate throws or changes the world, and the launched
    touches do not change what the outputs' predicates see: it resolves, it launches [touch] on exactly the outputs
    whose predicate holds after the chain, once each and in link order, and
    it calls every sink once, in the order they were added. *)
Theorem touch_launches_qualifying_outputs spawn this nd ctx
    (override : option ShouldActivate) s s1 :
  (Node.shouldActivate
     (Some (default (Node.own_shouldActivate nd) override)) this ctx s).1 = true ->
  pipe (Node.stack nd) ctx None
    (Node.shouldActivate
       (Some (default (Node.own_shouldActivate nd) override)) this ctx s).2
    = (Resolved, s1) ->
  (forall e, e ∈ Node.outputs nd ->
     forall node w, qualifies ctx (spawn node ctx w) e = qualifies ctx w e) ->
  Forall (fun sk => forall x w, (sink_call sk x w).1 = SinkReturned) (Node.sinks nd) ->
  (Node.touch spawn this nd ctx override s).1 = Resolved /\
  touches_of (events (Node.touch spawn this nd ctx override s).2) =
    touches_of (events s) ++
    (filter (fun e => qualifies ctx (world s1) e = true) (Node.outputs nd)).*1 /\
  sinks_of (events (Node.touch spawn this nd ctx override s).2) =
    sinks_of (events s) ++ (sink_ref <$> Node.sinks nd).
Proof.
  intros Hon Hpipe Hq Hsinks. unfold Node.touch.
  destruct (decision_spec (default (Node.own_shouldActivate nd) override) this ctx s)
    as (_ & _ & Ht0 & Hs0).
  pose proof (pipe_events (Node.stack nd) ctx None
    (Node.shouldActivate
       (Some (default (Node.own_shouldActivate nd) override)) this ctx s).2) as [m Hev].
  destruct (Node.shouldActivate _ _ _ _) as [active s0]. simpl in Hon, Hpipe, Ht0, Hs0, Hev.
  subst active. cbn [negb]. rewrite Hpipe in *. simpl in Hev.
  assert (touches_of (events s1) = touches_of (events s)) as Ht1
    by (by rewrite Hev, touches_of_steps).
  assert (sinks_of (events s1) = sinks_of (events s)) as Hs1
    by (by rewrite Hev, sinks_of_steps).
  unfold Node.fan_out.
  set (s2 := if decide (JSMap.size (Node.outputs nd) = 0) then s1 else _).
  assert (touches_of (events s2) =
          touches_of (events s) ++
          (filter (fun e => qualifies ctx (world s1) e = true) (Node.outputs nd)).*1
          /\ sinks_of (events s2) = sinks_of (events s)) as [Ht2 Hs2].
  { subst s2. case_decide as Hsize.
    - destruct (Node.outputs nd); [| done]. simpl. by rewrite app_nil_r.
    - unfold JSMap.entries.
      rewrite touch_outputs_sinks, (touch_outputs_touches _ _ (world s1)) by done.
      by rewrite Ht1. }
  case_decide as Hlen.
  - destruct (Node.sinks nd); [| done]. simpl. by rewrite app_nil_r.
  - pose proof (call_sinks_touches (Node.sinks nd) ctx s2) as Ht3.
    destruct (call_sinks_return (Node.sinks nd) ctx s2 Hsinks) as [Hnone Hs3].
    destruct (Node.call_sinks _ _ _) as [[e |] s3]; simpl in *; [done |].
    by rewrite Ht3, Hs3, Ht2, Hs2.
Qed.

(** When the node's own chain rejects, [touch] rejects with the same error
    and neither launches a [touch] nor calls a sink. *)
Theorem touch_chain_failure_skips_fan_out spawn this nd ctx
    (override : option ShouldActivate) s error :
  (Node.shouldActivate
     (Some (default (Node.own_shouldActivate nd) override)) this ctx s).1 = true ->
  (pipe (Node.stack nd) ctx None
     (Node.shouldActivate
        (Some (default (Node.own_shouldActivate nd) override)) this ctx s).2).1
    = Rejected error ->
  (Node.touch spawn this nd ctx override s).1 = Rejected error /\
  touches_of (events (Node.touch spawn this nd ctx override s).2) = touches_of (events s) /\
  sinks_of (events (Node.touch spawn this nd ctx override s).2) = sinks_of (events s).
Proof.
  intros Hon Hpipe. unfold Node.touch.
  destruct (decision_spec (default (Node.own_shouldActivate nd) override) this ctx s)
    as (_ & _ & Ht0 & Hs0).
  pose proof (pipe_events (Node.stack nd) ctx None
    (Node.shouldActivate
       (Some (default (Node.own_shouldActivate nd) override)) this ctx s).2) as [m Hev].
  destruct (Node.shouldActivate _ _ _ _) as [active s0]. simpl in Hon, Hpipe, Ht0, Hs0, Hev.
  subst active. cbn [negb].
  destruct (pipe _ _ _ _) as [o s1]. simpl in Hpipe, Hev. subst o. simpl.
  by rewrite Hev, touches_of_steps, sinks_of_steps.
Qed.

(** A sink that throws at its call site ends [touch]: the sinks added before
    it have been called, in order, [touch] rejects with the thrown value as
    it is, and the sinks added after it are not called. *)
Theorem touch_rejects_at_first_throwing_sink spawn this nd ctx
    (override : option ShouldActivate) s (before after : list Sink) (sk : Sink) error :
  (Node.shouldActivate
     (Some (default (Node.own_shouldActivate nd) override)) this ctx s).1 = true ->
  (pipe (Node.stack nd) ctx None
     (Node.shouldActivate
        (Some (default (Node.own_shouldActivate nd) override)) this ctx s).2).1
    = Resolved ->
  Node.sinks nd = before ++ sk :: after ->
  Forall (fun sk => forall x w, (sink_call sk x w).1 = SinkReturned) before ->
  (forall w, (sink_call sk ctx w).1 = SinkThrew error) ->
  (Node.touch spawn this nd ctx override s).1 = Rejected error /\
  sinks_of (events (Node.touch spawn this nd ctx override s).2) =
    sinks_of (events s) ++ (sink_ref <$> before) ++ [sink_ref sk].
Proof.
  intros Hon Hpipe Hsplit Hbefore Hthrow. unfold Node.touch.
  destruct (decision_spec (default (Node.own_shouldActivate nd) override) this ctx s)
    as (_ & _ & _ & Hs0).
  pose proof (pipe_events (Node.stack nd) ctx None
    (Node.shouldActivate
       (Some (default (Node.own_shouldActivate nd) override)) this ctx s).2) as [m Hev].
  destruct (Node.shouldActivate _ _ _ _) as [active s0]. simpl in Hon, Hpipe, Hs0, Hev.
  subst active. cbn [negb].
  destruct (pipe _ _ _ _) as [o s1]. simpl in Hpipe, Hev. subst o.
  unfold Node.fan_out.
  set (s2 := if decide (JSMap.size (Node.outputs nd) = 0) then s1 else _).
  assert (sinks_of (events s2) = sinks_of (events s)) as Hs2.
  { subst s2. case_decide.
    - by rewrite Hev, sinks_of_steps.
    - by rewrite touch_outputs_sinks, Hev, sinks_of_steps. }
  rewrite Hsplit. case_decide as Hlen.
  { rewrite length_app in Hlen. simpl in Hlen. lia. }
  destruct (call_sinks_throw before after sk ctx s2 error Hbefore Hthrow) as [Herr Hs3].
  destruct (Node.call_sinks _ _ _) as [[e |] s3]; simpl in *; [| done].
  injection Herr as ->. by rewrite Hs3, Hs2.
Qed.

End MoreTouchFacts.

Section ClearedAndById.
Context {T World V : Type}.

Local Abbreviation Error := (Error T V).
Local Abbreviation Outcome := (Outcome T V).
Local Abbreviation Processor := (Processor T World V).
Local Abbreviation ShouldActivate := (ShouldActivate T World).
Local Abbreviation Sink := (Sink T World V).
Local Abbreviation State := (State T World).
Local Abbreviation Node := (Node.Node T World V).
Local Abbreviation Heap := (Node.Heap T World V).
Local Abbreviation NodeI := (NodeById.Node T World V).
Local Abbreviation Output := (NodeById.Output T World).

Implicit Types (h : Heap) (s : State) (ctx : T) (nd : Node)
  (this : NodeRef) (spawn : NodeRef -> T -> World -> World).

Lemma touch_steps_without_stack spawn this nd ctx (override : option ShouldActivate) s :
  Node.stack nd = [] ->
  steps_of (events (Node.touch spawn this nd ctx override s).2) = steps_of (events s).
Proof.
  intros Hstack. unfold Node.touch. rewrite Hstack.
  pose proof (decision_steps
    (Some (default (Node.own_shouldActivate nd) override)) this ctx s) as Hdec.
  destruct (Node.shouldActivate _ _ _ _) as [[] s0]; simpl in *; [| done].
  change (pipe [] ctx None s0) with (@Resolved T V, s0).
  by rewrite fan_out_steps.
Qed.

Lemma touch_touches_without_outputs spawn this nd ctx
    (override : option ShouldActivate) s :
  Node.outputs nd = [] ->
  touches_of (events (Node.touch spawn this nd ctx override s).2) = touches_of (events s).
Proof.
  intros Hout. unfold Node.touch.
  destruct (decision_spec (default (Node.own_shouldActivate nd) override) this ctx s)
    as (_ & _ & Ht0 & _).
  pose proof (pipe_events (Node.stack nd) ctx None
    (Node.shouldActivate
       (Some (default (Node.own_shouldActivate nd) override)) this ctx s).2) as [m Hev].
  destruct (Node.shouldActivate _ _ _ _) as [[] s0]; simpl in *; [| done].
  destruct (pipe _ _ _ _) as [[| e |] s1]; simpl in *;
    try (by rewrite Hev, touches_of_steps).
  unfold Node.fan_out. rewrite Hout. simpl.
  case_decide; simpl.
  - by rewrite Hev, touches_of_steps.
  - pose proof (call_sinks_touches (Node.sinks nd) ctx s1) as Ht.
    destruct (Node.call_sinks _ _ _) as [[e |] s3]; simpl in *;
      by rewrite Ht, Hev, touches_of_steps.
Qed.

Lemma touch_sinks_without_sinks spawn this nd ctx (override : option ShouldActivate) s :
  Node.sinks nd = [] ->
  sinks_of (events (Node.touch spawn this nd ctx override s).2) = sinks_of (events s).
Proof.
  intros Hsinks. unfold Node.touch.
  destruct (decision_spec (default (Node.own_shouldActivate nd) override) this ctx s)
    as (_ & _ & _ & Hs0).
  pose proof (pipe_events (Node.stack nd) ctx None
    (Node.shouldActivate
       (Some (default (Node.own_shouldActivate nd) override)) this ctx s).2) as [m Hev].
  destruct (Node.shouldActivate _ _ _ _) as [[] s0]; simpl in *; [| done].
  destruct (pipe _ _ _ _) as [[| e |] s1]; simpl in *;
    try (by rewrite Hev, sinks_of_steps).
  unfold Node.fan_out. rewrite Hsinks. simpl.
  case_decide; simpl.
  - by rewrite Hev, sinks_of_steps.
  - by rewrite touch_outputs_sinks, Hev, sinks_of_steps.
Qed.

(** After [clearStack] a [touch] starts no step, after [unlinkAll] it
    launches no [touch], after [clearSinks] it calls no sink. *)
Theorem cleared_node_is_silent spawn h this nd ctx (override : option ShouldActivate) s :
  h !! this = Some nd ->
  (exists nd',
      Node.clearStack this h !! this = Some nd' /\
      steps_of (events (Node.touch spawn this nd' ctx override s).2) =
        steps_of (events s)) /\
  (exists nd',
      Node.unlinkAll this h !! this = Some nd' /\
      touches_of (events (Node.touch spawn this nd' ctx override s).2) =
        touches_of (events s)) /\
  (exists nd',
      Node.clearSinks this h !! this = Some nd' /\
      sinks_of (events (Node.touch spawn this nd' ctx override s).2) =
        sinks_of (events s)).
Proof.
  intros Hnd. split_and!.
  - eexists. split; [by apply update_lookup |]. by apply touch_steps_without_stack.
  - eexists. split; [by apply update_lookup |]. by apply touch_touches_without_outputs.
  - eexists. split; [by apply update_lookup |]. by apply touch_sinks_without_sinks.
Qed.

Lemma filter_outputs_spec (l : list Output) ctx s :
  (NodeById.filter_outputs l ctx s).1 =
    filter (fun o => qualifies_by_id ctx (world s) o = true) l /\
  world (NodeById.filter_outputs l ctx s).2 = world s /\
  touches_of (events (NodeById.filter_outputs l ctx s).2) = touches_of (events s) /\
  sinks_of (events (NodeById.filter_outputs l ctx s).2) = sinks_of (events s).
Proof.
  revert s. induction l as [| o l IH]; intros s; simpl; [done |].
  assert ((NodeById.shouldActivate (NodeById.out_shouldActivate o)
             (NodeById.node o) ctx s).1 = qualifies_by_id ctx (world s) o /\
          world (NodeById.shouldActivate (NodeById.out_shouldActivate o)
             (NodeById.node o) ctx s).2 = world s /\
          touches_of (events (NodeById.shouldActivate (NodeById.out_shouldActivate o)
             (NodeById.node o) ctx s).2) = touches_of (events s) /\
          sinks_of (events (NodeById.shouldActivate (NodeById.out_shouldActivate o)
             (NodeById.node o) ctx s).2) = sinks_of (events s)) as (Hd & Hw & Ht & Hs).
  { unfold qualifies_by_id. destruct (NodeById.out_shouldActivate o) as [[| f] |];
      simpl; try done.
    by rewrite touches_of_snoc, sinks_of_snoc, !app_nil_r. }
  destruct (NodeById.shouldActivate _ _ _ _) as [active s1]. simpl in Hd, Hw, Ht, Hs.
  destruct (IH s1) as (Hk & Hw2 & Ht2 & Hs2).
  destruct (NodeById.filter_outputs l ctx s1) as [kept s2]. simpl in *.
  split_and!; [| congruence | congruence | congruence].
  rewrite filter_cons, <- Hd, Hk, Hw. by destruct active.
Qed.

Lemma launches_spec spawn ctx (kept : list Output) s :
  touches_of (events
    (foldl (fun st o => Node.launch spawn (NodeById.node o) ctx st) s kept)) =
    touches_of (events s) ++ (NodeById.node <$> kept) /\
  sinks_of (events
    (foldl (fun st o => Node.launch spawn (NodeById.node o) ctx st) s kept)) =
    sinks_of (events s).
Proof.
  revert s. induction kept as [| o kept IH]; intros s; simpl.
  - by rewrite app_nil_r.
  - destruct (IH (Node.launch spawn (NodeById.node o) ctx s)) as [-> ->].
    simpl. rewrite touches_of_snoc, sinks_of_snoc, app_nil_r.
    by rewrite <- app_assoc.
Qed.

(** The id-keyed edition filters before it maps: all predicates of the
    outputs are evaluated before any [touch] is launched; when none of them
    throws or changes the world, that is in the world the chain left.
    Whatever the launched touches do to the world, the targets
    launched are those whose predicate (absent counts as true) holds in that
    world, in link order; every sink is called once. *)
Theorem touch_by_id_decides_before_launching
    (pipeMiddleware : list Processor -> T -> State -> Outcome * State) spawn this
    (nd : NodeI) ctx (override : option ShouldActivate) s s1 :
  (NodeById.shouldActivate
     (Some (default (NodeById.own_shouldActivate nd) override)) this ctx s).1 = true ->
  pipeMiddleware (NodeById.stack nd) ctx
    (NodeById.shouldActivate
       (Some (default (NodeById.own_shouldActivate nd) override)) this ctx s).2
    = (Resolved, s1) ->
  Forall (fun sk => forall x w, (sink_call sk x w).1 = SinkReturned)
    (NodeById.sinks nd) ->
  (NodeById.touch pipeMiddleware spawn this nd ctx override s).1 = Resolved /\
  touches_of (events (NodeById.touch pipeMiddleware spawn this nd ctx override s).2) =
    touches_of (events s1) ++
    (NodeById.node <$>
       filter (fun o => qualifies_by_id ctx (world s1) o = true)
         (JSMap.values (NodeById.outputs nd))) /\
  sinks_of (events (NodeById.touch pipeMiddleware spawn this nd ctx override s).2) =
    sinks_of (events s1) ++ (sink_ref <$> NodeById.sinks nd).
Proof.
  intros Hon Hpipe Hsinks. unfold NodeById.touch.
  destruct (NodeById.shouldActivate _ _ _ _) as [active s0]. simpl in Hon, Hpipe.
  subst active. cbn [negb]. rewrite Hpipe.
  set (s2 := if decide (JSMap.size (NodeById.outputs nd) = 0) then s1 else _).
  assert (touches_of (events s2) =
          touches_of (events s1) ++
          (NodeById.node <$>
             filter (fun o => qualifies_by_id ctx (world s1) o = true)
               (JSMap.values (NodeById.outputs nd)))
          /\ sinks_of (events s2) = sinks_of (events s1)) as [Ht2 Hs2].
  { subst s2. case_decide as Hsize.
    - destruct (NodeById.outputs nd); [| done]. simpl. by rewrite app_nil_r.
    - destruct (filter_outputs_spec (JSMap.values (NodeById.outputs nd)) ctx s1)
        as (Hk & _ & Ht & Hs).
      destruct (NodeById.filter_outputs _ _ _) as [kept s1']. simpl in Hk, Ht, Hs.
      destruct (launches_spec spawn ctx kept s1') as [-> ->].
      by rewrite Ht, Hs, Hk. }
  case_decide as Hlen.
  - destruct (NodeById.sinks nd); [| done]. simpl. by rewrite app_nil_r.
  - pose proof (call_sinks_touches (NodeById.sinks nd) ctx s2) as Ht3.
    destruct (call_sinks_return (NodeById.sinks nd) ctx s2 Hsinks) as [Hnone Hs3].
    destruct (Node.call_sinks _ _ _) as [[e |] s3]; simpl in *; [done |].
    by rewrite Ht3, Hs3, Ht2, Hs2.
Qed.

End ClearedAndById.

(* ------------------------------------------------------------------------- *)
(** ** More about [explore] *)

Section ExploreFacts.
Context {T World V : Type}.

Local Abbreviation Node := (Node.Node T World V).
Local Abbreviation Heap := (Node.Heap T World V).

Implicit Types (h : Heap) (a b : NodeRef) (nd : Node).

(** One unfolding of [explore]. *)
Lemma explore_S fuel h a wrap :
  Node.explore (S fuel) h a wrap =
  nd ← h !! a;
  tree ← foldl (explore_step fuel h) (Some (Obj [])) (JSMap.keys (Node.outputs nd));
  Some (if default true wrap then Obj [(Node.id nd, tree)] else tree).
Proof. reflexivity. Qed.

Lemma explore_fold_none fuel h (refs : list NodeRef) :
  foldl (explore_step fuel h) None refs = None.
Proof. by induction refs. Qed.

(** The loop returns a tree only if every recursive call has returned. *)
Lemma explore_fold_children fuel h (refs : list NodeRef) acc tree :
  foldl (explore_step fuel h) acc refs = Some tree ->
  forall b, b ∈ refs -> is_Some (Node.explore fuel h b (Some false)).
Proof.
  revert acc. induction refs as [| r refs IH]; intros acc Hfold b Hb.
  - by apply elem_of_nil in Hb.
  - cbn [foldl] in Hfold. apply elem_of_cons in Hb as [-> | Hb]; [| by eapply IH].
    destruct (explore_step fuel h acc r) as [t |] eqn:Hstep.
    + unfold explore_step in Hstep.
      destruct acc as [t0 |]; [| done]. simpl in Hstep.
      destruct (h !! r) as [target |]; [| done]. simpl in Hstep.
      by destruct (Node.explore fuel h r (Some false)).
    + by rewrite explore_fold_none in Hfold.
Qed.

Lemma cycle_step h b :
  tc (linked h) b b -> exists b', linked h b b' /\ tc (linked h) b' b'.
Proof.
  intros Hcycle. inversion Hcycle as [? ? Hedge | ? b' ? Hedge Hback]; subst.
  - by exists b.
  - exists b'. split; [done |]. by eapply tc_r.
Qed.

(** From a node that leads into a cycle, some output leads into a cycle. *)
Lemma into_cycle_step h a :
  (exists c, rtc (linked h) a c /\ tc (linked h) c c) ->
  exists a', linked h a a' /\ exists c, rtc (linked h) a' c /\ tc (linked h) c c.
Proof.
  intros (c & Hreach & Hcycle).
  inversion Hreach as [| ? a' ? Hedge Hrest]; subst.
  - destruct (cycle_step h c Hcycle) as (c' & Hedge & Hc').
    exists c'. split; [done |]. by exists c'.
  - exists a'. split; [done |]. by exists c.
Qed.

Lemma explore_into_cycle fuel h :
  forall a wrap,
    (exists c, rtc (linked h) a c /\ tc (linked h) c c) ->
    Node.explore fuel h a wrap = None.
Proof.
  induction fuel as [| fuel IH]; intros a wrap Hinto; [done |].
  destruct (into_cycle_step h a Hinto) as (a' & [A [HA Hin]] & Hrest).
  rewrite explore_S, HA. simpl.
  destruct (foldl _ _ _) as [tree |] eqn:Hfold; [| done].
  destruct (explore_fold_children _ _ _ _ _ Hfold a' Hin) as [t Ht].
  by rewrite (IH a' (Some false) Hrest) in Ht.
Qed.

(** [explore] has no cycle guard: from a node from which a cycle of links can
    be reached it returns for no recursion bound, also when the cycle is a
    node linked to itself. *)
Theorem explore_never_returns_into_a_cycle h a b :
  rtc (linked h) a b ->
  tc (linked h) b b ->
  forall fuel wrap, Node.explore fuel h a wrap = None.
Proof.
  intros Hreach Hcycle fuel wrap. apply explore_into_cycle. by exists b.
Qed.



End ExploreFacts.

Section LinkOrder.
Context {T World V : Type}.

Local Abbreviation ShouldActivate := (ShouldActivate T World).
Local Abbreviation Node := (Node.Node T World V).
Local Abbreviation Heap := (Node.Heap T World V).
Local Abbreviation NodeI := (NodeById.Node T World V).
Local Abbreviation HeapI := (NodeById.Heap T World V).

Implicit Types (h : Heap) (g : HeapI) (a b : NodeRef).

(** [link] keeps the iteration order of the outputs: linking a node that is
    already linked leaves the order as it is, linking a new one puts it
    last. *)
Theorem link_keeps_insertion_order h a b (A : Node) (sa : option ShouldActivate) :
  h !! a = Some A ->
  exists A',
    Node.link a b sa h !! a = Some A' /\
    JSMap.keys (Node.outputs A') =
      if decide (b ∈ JSMap.keys (Node.outputs A)) then JSMap.keys (Node.outputs A)
      else JSMap.keys (Node.outputs A) ++ [b].
Proof.
  intros HA. unfold Node.link. eexists. split; [by apply update_lookup |].
  simpl. apply keys_set.
Qed.

Lemma update_by_id_update g this f f' :
  NodeById.update this f (NodeById.update this f' g) = NodeById.update this (f ∘ f') g.
Proof.
  unfold NodeById.update. destruct (g !! this) as [nd |] eqn:Hnd.
  - rewrite list_lookup_insert_eq by (by eapply lookup_lt_Some).
    by rewrite list_insert_insert_eq.
  - by rewrite Hnd.
Qed.

Lemma update_by_id_same g this f :
  (forall nd, g !! this = Some nd -> f nd = nd) -> NodeById.update this f g = g.
Proof.
  intros Hf. unfold NodeById.update. destruct (g !! this) as [nd |] eqn:Hnd; [| done].
  rewrite (Hf nd eq_refl). by apply list_insert_id.
Qed.

(** In the id-keyed edition [unlink] undoes [link] when no output was stored
    under the target's id. *)
Theorem link_by_id_then_unlink g a b (A B : NodeI) (sa : option ShouldActivate) :
  g !! a = Some A ->
  g !! b = Some B ->
  NodeById.id B ∉ JSMap.keys (NodeById.outputs A) ->
  NodeById.unlink a b (NodeById.link a b sa g) = g.
Proof.
  intros HA HB Hfresh.
  destruct (link_by_id_keeps_id g a b b B B sa HB HB) as (B' & HB' & Hid).
  unfold NodeById.unlink. rewrite HB', Hid.
  unfold NodeById.link. rewrite HB.
  rewrite update_by_id_update. apply update_by_id_same.
  intros nd Hnd. rewrite HA in Hnd. injection Hnd as <-. simpl.
  rewrite delete_set_absent by done. by destruct A.
Qed.

End LinkOrder.

(* ------------------------------------------------------------------------- *)
(** ** The further statements at concrete steps and graphs *)

Section MoreConcrete.
Import Samples MoreSamples CursorSamples.

(** A rescued failure: the third step is never started, the guard's handler
    sets the counter. *)
Example rescue_in_action :
  pipe [rescue; add10; boom; add10] 7 None s0 =
  (Resolved, {| world := 99; events := [EvStep 0; EvStep 1; EvStep 2] |}).
Proof. reflexivity. Qed.

(** A guard that calls [next()] again after a failure starts the step after
    the failed one. *)
Example retry_runs_the_step_after_the_failure :
  pipe [(fun _ => AwaitNext Return (fun _ => AwaitNext Return (fun e => Throw e)));
        boom; add10] 7 None s0 =
  (Resolved, {| world := 15; events := [EvStep 0; EvStep 1; EvStep 2] |}).
Proof. reflexivity. Qed.

(** The statement at the chain [add10; boom]. *)
Lemma pipe_rejection_is_chain_failure_witness :
  exists cause,
    chain_failure 7 (chain_failure 7 (Thrown "boom"%string)) = chain_failure 7 cause.
Proof.
  apply (pipe_rejection_is_chain_failure [add10; boom] 7 None s0). reflexivity.
Defined.

(** The statement at the chain [twice; halt; add10] run with [at15]. *)
Lemma pipe_resolves_when_no_step_throws_witness :
  (pipe [twice; halt; add10] 7 (Some at15) s0).1 = Resolved.
Proof.
  apply (pipe_resolves_when_no_step_throws [twice; halt; add10] 7 (Some at15) s0).
  repeat constructor.
Defined.

(** The statement at the chain [add10; halt; boom]. *)
Lemma pipe_stops_at_step_without_next_witness :
  exists w,
    pipe ([add10] ++ halt :: [boom]) 7 None s0 =
    (Resolved, {| world := w; events := events s0 ++ (EvStep <$> seq 0 2) |}).
Proof.
  apply (pipe_stops_at_step_without_next [add10] [boom] halt 7 None s0).
  - repeat constructor.
  - repeat constructor.
  - reflexivity.
Defined.

(** The statement at the chain [rescue; add10; boom; add10]. *)
Lemma pipe_rejection_can_be_caught_witness :
  exists w,
    pipe (rescue :: [add10] ++ boom :: [add10]) 7 None s0 =
    (Resolved, {| world := w; events := events s0 ++ (EvStep <$> seq 0 3) |}).
Proof.
  apply (pipe_rejection_can_be_caught rescue boom [add10] [add10] 7 None s0
           (Thrown "boom"%string)).
  - repeat constructor.
  - repeat constructor.
  - constructor.
  - reflexivity.
Defined.


(** The statement at the store [chain]. *)
Lemma built_heap_is_well_formed_witness :
  Forall well_formed chain /\
  Forall (fun nd => Forall (fun r => r < length chain) (JSMap.keys (Node.outputs nd)))
    chain.
Proof.
  apply (built_heap_is_well_formed chain).
  apply built_link; [apply built_link |].
  - apply (built_new [Node.new (init "A") ""; Node.new (init "B") ""]%string
             (init "C") ""%string).
    apply (built_new [Node.new (init "A") ""]%string (init "B") ""%string).
    apply (built_new [] (init "A") ""%string).
    apply built_empty.
  - simpl. lia.
  - simpl. lia.
Defined.

(** The statement at node 0 of [chain] and node 2. *)
Lemma link_then_unlink_witness :
  Node.unlink 0 2 (Node.link 0 2 (Some positive) chain) = chain /\
  Node.unlink 0 2 chain = chain.
Proof.
  apply (link_then_unlink chain 0 2
           {| Node.id := "A"%string; Node.own_shouldActivate := Always;
              Node.stack := []; Node.outputs := [(1, Always)]; Node.sinks := [] |}
           (Some positive)).
  - reflexivity.
  - simpl. intros Hin. apply list_elem_of_singleton in Hin. lia.
Defined.

(** The statement at [busy_node] and [counting_sink]. *)
Lemma sinks_form_a_set_witness :
  Node.sink 0 counting_sink (Node.sink 0 counting_sink [busy_node]) =
    Node.sink 0 counting_sink [busy_node] /\
  (sink_ref counting_sink ∈ sink_ref <$> Node.sinks busy_node ->
   Node.sink 0 counting_sink [busy_node] = [busy_node]) /\
  (sink_ref counting_sink ∉ sink_ref <$> Node.sinks busy_node ->
   Node.unsink 0 counting_sink (Node.sink 0 counting_sink [busy_node]) = [busy_node]) /\
  (exists A',
      Node.unsink 0 counting_sink [busy_node] !! 0 = Some A' /\
      sink_ref counting_sink ∉ sink_ref <$> Node.sinks A').
Proof.
  apply (sinks_form_a_set [busy_node] 0 busy_node counting_sink). reflexivity.
Defined.

(** The statement at [hub]. *)
Lemma touch_launches_qualifying_outputs_witness :
  (Node.touch idle 0 hub 7 None s0).1 = Resolved /\
  touches_of (events (Node.touch idle 0 hub 7 None s0).2) =
    touches_of (events s0) ++
    (filter (fun e => qualifies 7 15 e = true) (Node.outputs hub)).*1 /\
  sinks_of (events (Node.touch idle 0 hub 7 None s0).2) =
    sinks_of (events s0) ++ (sink_ref <$> Node.sinks hub).
Proof.
  apply (touch_launches_qualifying_outputs idle 0 hub 7 None s0
           {| world := 15; events := [EvPredicate 0 7; EvStep 0] |}).
  - reflexivity.
  - reflexivity.
  - reflexivity.
  - repeat constructor.
Defined.

(** The statement at [failing_node]. *)
Lemma touch_chain_failure_skips_fan_out_witness :
  (Node.touch idle 0 failing_node 7 None s0).1 =
    Rejected (chain_failure 7 (chain_failure 7 (Thrown "boom"%string))) /\
  touches_of (events (Node.touch idle 0 failing_node 7 None s0).2) =
    touches_of (events s0) /\
  sinks_of (events (Node.touch idle 0 failing_node 7 None s0).2) = sinks_of (events s0).
Proof.
  apply (touch_chain_failure_skips_fan_out idle 0 failing_node 7 None s0); reflexivity.
Defined.

(** The statement at [node_with_late_throw]. *)
Lemma touch_rejects_at_first_throwing_sink_witness :
  (Node.touch idle 0 node_with_late_throw 7 None s0).1 = Rejected (Thrown "boom"%string) /\
  sinks_of (events (Node.touch idle 0 node_with_late_throw 7 None s0).2) =
    sinks_of (events s0) ++ (sink_ref <$> [counting_sink]) ++ [sink_ref throwing_sink].
Proof.
  apply (touch_rejects_at_first_throwing_sink idle 0 node_with_late_throw 7 None s0
           [counting_sink] [quiet_sink] throwing_sink (Thrown "boom"%string)).
  - reflexivity.
  - reflexivity.
  - reflexivity.
  - repeat constructor.
  - reflexivity.
Defined.

(** The statement at [hub]. *)
Lemma cleared_node_is_silent_witness :
  (exists nd',
      Node.clearStack 0 [hub] !! 0 = Some nd' /\
      steps_of (events (Node.touch idle 0 nd' 7 None s0).2) = steps_of (events s0)) /\
  (exists nd',
      Node.unlinkAll 0 [hub] !! 0 = Some nd' /\
      touches_of (events (Node.touch idle 0 nd' 7 None s0).2) = touches_of (events s0)) /\
  (exists nd',
      Node.clearSinks 0 [hub] !! 0 = Some nd' /\
      sinks_of (events (Node.touch idle 0 nd' 7 None s0).2) = sinks_of (events s0)).
Proof.
  apply (cleared_node_is_silent idle [hub] 0 hub 7 None s0). reflexivity.
Defined.

(** The statement at [hub_by_id], with launched touches that add 1000 to the counter. *)
Lemma touch_by_id_decides_before_launching_witness :
  (NodeById.touch (fun ps ctx s => pipe ps ctx None s) (fun _ _ w => w + 1000) 0
     hub_by_id 7 None s0).1 = Resolved /\
  touches_of (events
    (NodeById.touch (fun ps ctx s => pipe ps ctx None s) (fun _ _ w => w + 1000) 0
       hub_by_id 7 None s0).2) =
    touches_of [EvPredicate 0 7; EvStep 0] ++
    (NodeById.node <$>
       filter (fun o => qualifies_by_id 7 15 o = true)
         (JSMap.values (NodeById.outputs hub_by_id))) /\
  sinks_of (events
    (NodeById.touch (fun ps ctx s => pipe ps ctx None s) (fun _ _ w => w + 1000) 0
       hub_by_id 7 None s0).2) =
    sinks_of [EvPredicate 0 7; EvStep 0] ++ (sink_ref <$> NodeById.sinks hub_by_id).
Proof.
  apply (touch_by_id_decides_before_launching
           (fun ps ctx s => pipe ps ctx None s) (fun _ _ w => w + 1000) 0
           hub_by_id 7 None s0 {| world := 15; events := [EvPredicate 0 7; EvStep 0] |}).
  - reflexivity.
  - reflexivity.
  - repeat constructor.
Defined.

(** With launched touches that add 1000 to the counter, the edition with
    [use] asks the later predicates after the earlier launches, the id-keyed
    edition asks them all first: the output gated by [large] is launched in
    the one and not in the other. *)
Example editions_differ_in_fan_out :
  touches_of (events
    (Node.touch (fun _ _ w => w + 1000) 0 hub 7 None s0).2) = [1; 2; 3] /\
  touches_of (events
    (NodeById.touch (fun ps ctx s => pipe ps ctx None s) (fun _ _ w => w + 1000) 0
       hub_by_id 7 None s0).2) = [1; 3].
Proof. split; reflexivity. Qed.

(** The statement at the self-linked node of [loop]. *)
Lemma explore_never_returns_into_a_cycle_witness :
  Node.explore 100 loop 0 None = None.
Proof.
  apply (explore_never_returns_into_a_cycle loop 0 0).
  - apply rtc_refl.
  - apply tc_once. eexists. split; [reflexivity |]. simpl. left.
Defined.


(** The statement at [failing_node]. *)
Lemma touch_settles_like_chain_witness :
  (Node.touch idle 0 failing_node 7 None s0).1 =
  (pipe (Node.stack failing_node) 7 None s0).1.
Proof.
  apply (touch_settles_like_chain idle 0 failing_node 7 None s0).
  repeat constructor.
Defined.

(** The statement at [fork], linking node 1 again. *)
Lemma link_keeps_insertion_order_witness :
  exists A',
    Node.link 0 1 (Some large) fork !! 0 = Some A' /\
    JSMap.keys (Node.outputs A') =
      if decide (1 ∈ JSMap.keys [(1, @Always nat nat); (2, Always)]) then
        JSMap.keys [(1, @Always nat nat); (2, Always)]
      else JSMap.keys [(1, @Always nat nat); (2, Always)] ++ [1].
Proof.
  apply (link_keeps_insertion_order fork 0 1
           {| Node.id := "A"%string; Node.own_shouldActivate := Always;
              Node.stack := []; Node.outputs := [(1, Always); (2, Always)];
              Node.sinks := [] |} (Some large)).
  reflexivity.
Defined.

(** The statement at node 0 of [chain_by_id] and node 2. *)
Lemma link_by_id_then_unlink_witness :
  NodeById.unlink 0 2 (NodeById.link 0 2 (Some large) chain_by_id) = chain_by_id.
Proof.
  apply (link_by_id_then_unlink chain_by_id 0 2
           {| NodeById.id := "A"%string; NodeById.own_shouldActivate := Always;
              NodeById.stack := [];
              NodeById.outputs :=
                [("B"%string,
                  {| NodeById.node := 1; NodeById.out_shouldActivate := None |})];
              NodeById.sinks := [] |}
           (NodeById.new (init_by_id "C") "") (Some large)).
  - reflexivity.
  - reflexivity.
  - simpl. intros Hin. apply list_elem_of_singleton in Hin. discriminate.
Defined.

(** The cursor statement at [eager_chain]: the first step calls [next()]
    three times, so of the four steps after it three are run; the marks are
    [0; 1; 2; 3]. *)
Lemma pipe_each_step_at_most_once_witness :
  (pipe eager_chain 7 None no_marks).1 = Resolved /\
  world (pipe eager_chain 7 None no_marks).2 = [] ++ seq 0 (S (min 3 4)).
Proof.
  assert (forall i p, eager_chain !! i = Some p ->
            announces (fun l : list nat => l) i (p 7)) as Hann.
  { intros i p Hp.
    destruct i as [| [| [| [| [| i]]]]]; simpl in Hp; try discriminate;
      injection Hp as <-; eexists _, _; (split; [reflexivity |]);
      (split; [done |]); repeat constructor. }
  destruct (pipe_each_step_at_most_once (fun l => l) eager_chain 7 None
              no_marks Hann) as (_ & Hcalls & _).
  apply (Hcalls _ _ _ 3 eq_refl eq_refl).
  - repeat constructor.
  - done.
Defined.

(** Two steps call [next()] twice each and swallow what it throws, the third
    throws: every step has still run once, in order. *)
Example greedy_steps_run_once :
  pipe greedy_chain 7 None no_marks =
  (Resolved, {| world := [0; 1; 2; 3]; events := EvStep <$> [0; 1; 2; 3] |}).
Proof. reflexivity. Qed.

(** The executor of the id-keyed edition is [pipe] under another name. *)
Example pipeMiddleware_is_pipe :
  pipeMiddleware eager_chain 7 None no_marks = pipe eager_chain 7 None no_marks.
Proof. reflexivity. Qed.

End MoreConcrete.
